(** * multirun: a minimal process supervisor

    Shallow embedding of [main.go] (the linux build) and verification of
    its command validator, exit classifier, launcher, shutdown broadcast
    and supervision loop.

    Layout: Part I holds the definitions (one module per component of the
    program), Part II the lemmas and theorems about them, Part III further
    properties of the program. *)

From Stdlib Require Import ZArith Bool Lia.
From Stdlib Require String Ascii.
From stdpp Require Import base option list strings gmap fin_maps.

Local Open Scope Z_scope.

(* ===================================================================== *)
(** * Part I: the program                                                 *)
(* ===================================================================== *)

(** ** Runes

    [for _, r := range command] walks a Go string rune by rune.  The model
    takes the command as the sequence of runes that loop produces; a rune
    is an [int32], every rune met below is compared against ASCII
    constants only. *)

Module Rune.

Definition rune := Z.

Definition NONE : rune := 0.          (* the zero rune: no quote open *)
Definition BACKSLASH : rune := 92.    (* backslash *)
Definition SQUOTE : rune := 39.       (* single quote *)
Definition DQUOTE : rune := 34.       (* double quote *)
Definition SEMI : rune := 59.         (* semicolon *)
Definition PIPE : rune := 124.        (* vertical bar *)
Definition AMP : rune := 38.          (* ampersand *)

(** The runes of a 7-bit string literal (one rune per byte). *)
Fixpoint ascii (s : String.string) : list rune :=
  match s with
  | String.EmptyString => []
  | String.String a rest => Z.of_N (Ascii.N_of_ascii a) :: ascii rest
  end.

End Rune.

(** ** The command validator: [isChained] *)

Module Validator.
Import Rune.

(** The two variables of the scan. *)
Record scan := Scan { inQuote : rune; escaped : bool }.

Definition start : scan := Scan NONE false.

(** The first [case] of the switch: a single or a double quote. *)
Definition isQuote (r : rune) : bool := (r =? SQUOTE) || (r =? DQUOTE).

(** The second [case] of the switch: semicolon, bar, ampersand. *)
Definition isOperator (r : rune) : bool :=
  (r =? SEMI) || (r =? PIPE) || (r =? AMP).

(** One iteration of the loop body: either [return true] or the values of
    [inQuote] and [escaped] the next iteration starts from. *)
Inductive verdict := Chained | Continue (st : scan).

Definition step (st : scan) (r : rune) : verdict :=
  if escaped st then
    Continue (Scan (inQuote st) false)
  else if r =? BACKSLASH then
    Continue (Scan (inQuote st) true)
  else if negb (inQuote st =? NONE) then
    if r =? inQuote st then Continue (Scan NONE false)
    else Continue st
  else if isQuote r then Continue (Scan r false)
  else if isOperator r then Chained
  else Continue st.

(** The [for ... range] loop, entered with the given scan variables. *)
Fixpoint scanFrom (st : scan) (command : list rune) : bool :=
  match command with
  | [] => false
  | r :: rest =>
      match step st r with
      | Chained => true
      | Continue st' => scanFrom st' rest
      end
  end.

Definition isChained (command : list rune) : bool := scanFrom start command.

(** *** Positions of a command, as a scanner sees them

    A scanner is given by how it updates the pair (open quote, escaped) on
    one rune.  [track] is the validator's own update, read off [step]: it
    is what the loop would go on with if it did not return. *)

Definition track (st : scan) (r : rune) : scan :=
  match step st r with
  | Chained => st
  | Continue st' => st'
  end.

(** The scan variables in front of position [i]. *)
Definition stateBefore (adv : scan -> rune -> scan)
    (command : list rune) (i : nat) : scan :=
  fold_left adv (take i command) start.

(** Position [i] holds an operator that is outside any quote and not
    escaped, for the scanner [adv]. *)
Definition freeOperatorAt (adv : scan -> rune -> scan)
    (command : list rune) (i : nat) : Prop :=
  exists r, command !! i = Some r /\ isOperator r = true /\
            stateBefore adv command i = start.

(** A state with no escape pending inside a quote; the scan of the
    specification meets no other. *)
Definition plain (st : scan) : Prop :=
  inQuote st <> NONE -> escaped st = false.

(** Position [i] is covered: inside an open quote, or escaped. *)
Definition coveredAt (adv : scan -> rune -> scan)
    (command : list rune) (i : nat) : Prop :=
  inQuote (stateBefore adv command i) <> NONE \/
  escaped (stateBefore adv command i) = true.

End Validator.

(** *** The scanner the specification describes

    Section 4.1 of the specification, word for word: a backslash outside a
    quote escapes the following character; inside a single or double quote
    only the matching quote character closes the quote and all other
    characters are inert.  Kept apart from the program's own scanner and
    used only to compare the two. *)

Module SpecScanner.
Import Rune Validator.

Definition track (st : scan) (r : rune) : scan :=
  if negb (inQuote st =? NONE) then
    if r =? inQuote st then Scan NONE false else st
  else if escaped st then Scan NONE false
  else if r =? BACKSLASH then Scan NONE true
  else if isQuote r then Scan r false
  else st.

Fixpoint scanFrom (st : scan) (command : list rune) : bool :=
  match command with
  | [] => false
  | r :: rest =>
      if negb (inQuote st =? NONE) || escaped st then
        scanFrom (track st r) rest
      else if isOperator r then true
      else scanFrom (track st r) rest
  end.

Definition isChained (command : list rune) : bool := scanFrom start command.

End SpecScanner.

(** *** The scanner of the amended reading

    Quoted spans and escapes as the amended rule words them, written
    apart from the program: inside single quotes nothing but a single
    quote ends the span; elsewhere, that is outside quotes and inside
    double quotes, a backslash that is not itself escaped escapes the next
    rune, and an escaped rune neither opens nor closes a quote; inside
    double quotes the unescaped double quote ends the span.  Used only to
    compare with the program's scan. *)

Module AmendedScanner.
Import Rune Validator.

Definition track (st : scan) (r : rune) : scan :=
  if inQuote st =? SQUOTE then
    if r =? SQUOTE then Scan NONE false else st
  else if escaped st then Scan (inQuote st) false
  else if r =? BACKSLASH then Scan (inQuote st) true
  else if negb (inQuote st =? NONE) then
    if r =? inQuote st then Scan NONE false else st
  else if isQuote r then Scan r false
  else st.

(** No escape is ever pending inside single quotes in this reading. *)
Definition sound (st : scan) : Prop :=
  inQuote st = SQUOTE -> escaped st = false.

End AmendedScanner.

(** ** Commands the verification evaluates the validator on *)

Module Commands.
Import Rune.

(** [echo '\'; ls]: a backslash as the last rune of a single-quoted word,
    then an operator. *)
Definition quotedBackslashCmd : list rune :=
  Eval cbv in ascii "echo '\'; ls"%string.

(** The command of the repository's test named Escaped quote: [echo],
    then in double quotes [a], an escaped double quote, [b&c], an escaped
    double quote, [d]. *)
Definition escapedQuoteCmd : list rune :=
  Eval cbv in
    ascii "echo "%string ++ [DQUOTE] ++ ascii "a\"%string ++ [DQUOTE] ++ ascii "b&c\"%string
      ++ [DQUOTE] ++ ascii "d"%string ++ [DQUOTE].

(** [echo], then a double quote that is never closed, then [a; rm x]. *)
Definition unterminatedCmd : list rune :=
  Eval cbv in ascii "echo "%string ++ [DQUOTE] ++ ascii "a; rm x"%string.

(** [echo 'a;b']: an operator inside matching single quotes. *)
Definition quotedOperatorCmd : list rune :=
  Eval cbv in ascii "echo 'a;b'"%string.

(** The commands of the repository's test of rejected chains. *)
Definition echoHello : list rune := Eval cbv in ascii "echo hello"%string.
Definition sleepAndSleep : list rune :=
  Eval cbv in ascii "sleep 1 && sleep 1"%string.
Definition sleep5 : list rune := Eval cbv in ascii "sleep 5"%string.

End Commands.

(** ** The operating system interface

    The constants and the [WaitStatus] accessors of Go's [syscall] package
    on linux, which [main.go] calls.  A [WaitStatus] is a [uint32]: the low
    seven bits hold the terminating signal (0 = exited, 0x7F = stopped),
    bit 7 the core-dump flag, the next byte the exit status. *)

Module Syscall.

Definition SIGINT : Z := 2.
Definition SIGTERM : Z := 15.
Definition ESRCH : Z := 3.

Definition mask : Z := 0x7F.
Definition exited : Z := 0x00.
Definition stopped : Z := 0x7F.
Definition shift : Z := 8.

Definition Exited (w : Z) : bool := Z.land w mask =? exited.

Definition Signaled (w : Z) : bool :=
  negb (Z.land w mask =? stopped) && negb (Z.land w mask =? exited).

Definition ExitStatus (w : Z) : Z :=
  if negb (Exited w) then -1 else Z.land (Z.shiftr w shift) 0xFF.

Definition Signal (w : Z) : Z :=
  if negb (Signaled w) then -1 else Z.land w mask.

End Syscall.

(** ** The exit classifier: [isNormalExit] *)

Module Classifier.
Import Syscall.

(** What [exitErr.Sys()] holds: a [syscall.WaitStatus], or a value of some
    other dynamic type (the second type assertion then fails). *)
Inductive sysValue :=
| SysWaitStatus (ws : Z)
| SysOther.

(** A non-nil Go [error]: an [*exec.ExitError], or any other error value
    (an I/O error of [Wait], the result of [fmt.Errorf]). *)
Inductive error :=
| ExitError (sys : sysValue)
| OtherError.

(** [nil] is [None]. *)
Definition isNormalExit (err : option error) : bool :=
  match err with
  | None => true
  | Some e =>
      match e with
      | OtherError => false
      | ExitError sys =>
          match sys with
          | SysOther => false
          | SysWaitStatus ws =>
              if Exited ws then ExitStatus ws =? 0
              else if Signaled ws then
                (Signal ws =? SIGINT) || (Signal ws =? SIGTERM)
              else false
          end
      end
  end.

(** *** Termination outcomes, as the specification names them

    The tagged variant of the specification's design notes, and the wait(2)
    reading of what [cmd.Wait] returned: [nil] is exit status 0; a wait
    status whose low seven bits are zero is an exit with the status in the
    next byte; low seven bits neither 0 nor 0x7F are the terminating
    signal; everything else is unrecognised. *)
Inductive termination :=
| ExitedWithCode (code : Z)
| KilledBySignal (sig : Z)
| Unknown.

Definition terminationOf (err : option error) : termination :=
  match err with
  | None => ExitedWithCode 0
  | Some (ExitError (SysWaitStatus ws)) =>
      let low := Z.land ws 0x7F in
      if low =? 0 then ExitedWithCode (Z.land (Z.shiftr ws 8) 0xFF)
      else if low =? 0x7F then Unknown
      else KilledBySignal low
  | Some _ => Unknown
  end.

Definition normalTermination (t : termination) : Prop :=
  t = ExitedWithCode 0 \/ t = KilledBySignal SIGINT \/ t = KilledBySignal SIGTERM.

End Classifier.

(** ** The supervisor: launcher, event loop, shutdown broadcast, [main]

    Flag parsing and [setSubreaper] come first in [main] and touch nothing
    of what follows but the [verbose] flag; the model starts at
    [commands := flag.Args()]. *)

Module Supervisor.
Import Rune Syscall Classifier.

(** [type subprocess struct].  [cmdPid] is [cmd.Process.Pid]; the [err]
    field is [None] for [nil].  The store of the model holds [err] as the
    event loop writes it: the write of a waiter, [p.err = p.cmd.Wait()],
    happens at a time of its own and reaches the loop with the [ChildExit]
    event that carries its value. *)
Record subprocess := Subprocess {
  cmdPid : Z;
  command : list rune;
  up : bool;
  err : option error
}.

(** [type multirun struct].  The map holds pointers: [objects] is the store
    of the [subprocess] values allocated so far and a [*subprocess] is an
    index into it, so that a write through a pointer taken from the exit
    channel is seen through the map.  The two channels are the event
    sequence given to the loop. *)
Record multirun := Multirun {
  verbose : bool;
  objects : list subprocess;
  subprocesses : gmap Z nat
}.

(** What the program prints, by call site. *)
Inductive line :=
| Usage
| StartupError
| StartFailed (cmd : list rune)
| KillFailed (pid errno : Z)
| EndedAbnormally
| Launched (cmd : list rune) (pid : Z)
| ExitedAbnormally (proc : nat)
| ExitedNormally (proc : nat)
| OneExited
| ReceivedSignal (sig : Z)
| NoneStarted
| AllExitedOk
| FlagError
| SubreaperFailed (errno : Z)
| SubreaperOk.

(** What a run does to the outside, in order.  [CallShutdown] marks an
    entry into [app.shutdown], [Notify] the call of [signal.Notify] that
    opens [handleEvents]. *)
Inductive effect :=
| Stderr (l : line)
| Stdout (l : line)
| Start (cmd : list rune) (pid : option Z)
| Notify
| CallShutdown (sig : Z)
| Kill (target sig : Z) (errno : option Z).

(** The answers of the operating system: [osStart i cmd] is the outcome of
    the [cmd.Start()] of the [i]-th command ([None]: an error, [Some pid]:
    the child's pid); [osKill target sig] is the errno of
    [syscall.Kill(target, sig)] ([None]: nil). *)
Record OS := {
  osStart : nat -> list rune -> option Z;
  osKill : Z -> Z -> option Z
}.

(** What arrives at the [select]: a [*subprocess] on [exitChan], sent by
    its waiter after [p.err = p.cmd.Wait()], or a signal on [sigChan].
    [waitErr] is the value the waiter stored, which is what the loop reads
    as [proc.err] when it classifies the exit; the [err] field of the
    model holds what the loop itself then writes. *)
Inductive event :=
| ChildExit (proc : nat) (waitErr : option error)
| SignalReceived (sig : Z).

(** *** Methods of [app] as state transformers that record their effects *)

Record result (A : Type) := Result {
  value : A;
  final : multirun;
  trace : list effect
}.
Arguments Result {A} _ _ _.
Arguments value {A} _.
Arguments final {A} _.
Arguments trace {A} _.

Definition Run (A : Type) : Type := multirun -> result A.

Definition ret {A} (a : A) : Run A := fun app => Result a app [].

Definition bind {A B} (m : Run A) (k : A -> Run B) : Run B :=
  fun app =>
    let r1 := m app in
    let r2 := k (value r1) (final r1) in
    Result (value r2) (final r2) (trace r1 ++ trace r2).

Definition emit (e : effect) : Run unit := fun app => Result tt app [e].

Definition get : Run multirun := fun app => Result app app [].

Declare Scope run_scope.
Delimit Scope run_scope with run.
Notation "x <- m ;; k" := (bind m (fun x => k))
  (at level 100, m at next level, right associativity) : run_scope.
Notation "m ;; k" := (bind m (fun _ => k))
  (at level 100, right associativity) : run_scope.
Local Open Scope run_scope.

(** [logf(app.verbose, ...)] *)
Definition logf (l : line) : Run unit :=
  fun app => Result tt app (if verbose app then [Stdout l] else []).

(** [proc := &subprocess{...}; proc.up = true; app.subprocesses[pid] = proc] *)
Definition register (pid : Z) (cmd : list rune) : Run unit :=
  fun app =>
    Result tt
      (Multirun (verbose app)
         (objects app ++ [Subprocess pid cmd true None])
         (<[pid := length (objects app)]> (subprocesses app)))
      [].

(** A write through the pointer [proc]. *)
Definition store (proc : nat) (f : subprocess -> subprocess) : Run unit :=
  fun app =>
    Result tt
      (Multirun (verbose app) (alter f proc (objects app)) (subprocesses app))
      [].

Definition setUp (b : bool) (p : subprocess) : subprocess :=
  Subprocess (cmdPid p) (command p) b (err p).

Definition setErr (e : option error) (p : subprocess) : subprocess :=
  Subprocess (cmdPid p) (command p) (up p) e.

(** The error of [fmt.Errorf]. *)
Definition Errorf : error := OtherError.

(** [startSubprocesses]: the loop over [commands], the head being the
    [i]-th command of the call.  The waiter goroutine started for a
    launched child acts later, through the [ChildExit] event. *)
Fixpoint startFrom (os : OS) (i : nat) (commands : list (list rune))
    : Run (option error) :=
  match commands with
  | [] => ret None
  | cmd :: rest =>
      if Validator.isChained cmd then ret (Some Errorf)
      else
        match osStart os i cmd with
        | None =>
            emit (Start cmd None) ;;
            emit (Stderr (StartFailed cmd)) ;;
            startFrom os (S i) rest
        | Some pid =>
            emit (Start cmd (Some pid)) ;;
            register pid cmd ;;
            logf (Launched cmd pid) ;;
            startFrom os (S i) rest
        end
  end.

Definition startSubprocesses (os : OS) (commands : list (list rune))
    : Run (option error) :=
  startFrom os 0%nat commands.

(** [proc.up] read through a map entry. *)
Definition isUp (app : multirun) (proc : nat) : bool :=
  match objects app !! proc with
  | Some p => up p
  | None => false
  end.

(** The body of the [range] loop of [shutdown] for one map entry. *)
Definition signalOne (os : OS) (app : multirun) (sig : Z)
    (entry : Z * nat) : list effect :=
  if isUp app (snd entry) then
    match osKill os (- fst entry) sig with
    | None => [Kill (- fst entry) sig None]
    | Some e =>
        Kill (- fst entry) sig (Some e)
          :: (if e =? ESRCH then [] else [Stderr (KillFailed (fst entry) e)])
    end
  else [].

(** [shutdown].  Go leaves the order of a map [range] open; the model
    walks the entries in the order of [map_to_list]. *)
Definition shutdown (os : OS) (sig : Z) : Run unit :=
  emit (CallShutdown sig) ;;
  fun app =>
    Result tt app
      (flat_map (signalOne os app sig) (map_to_list (subprocesses app))).

(** [case proc := <-app.exitChan], after [runningProcesses--]; the value
    is the new [closing]. *)
Definition onExit (os : OS) (proc : nat) (waitErr : option error)
    (closing : bool) : Run bool :=
  store proc (setUp false) ;;
  (if negb (isNormalExit waitErr) then
     store proc (setErr (Some Errorf)) ;;
     logf (ExitedAbnormally proc)
   else
     store proc (setErr None) ;;
     logf (ExitedNormally proc)) ;;
  if negb closing then
    logf OneExited ;;
    shutdown os SIGTERM ;;
    ret true
  else ret closing.

(** [case sig := <-app.sigChan] *)
Definition onSignal (os : OS) (sig : Z) (closing : bool) : Run bool :=
  if negb closing then
    logf (ReceivedSignal sig) ;;
    shutdown os sig ;;
    ret true
  else ret closing.

(** The [select]: one event taken, the value is the new [closing]. *)
Definition select (os : OS) (ev : event) (closing : bool) : Run bool :=
  match ev with
  | ChildExit proc waitErr => onExit os proc waitErr closing
  | SignalReceived sig => onSignal os sig closing
  end.

(** [runningProcesses] after the event: the exit case decrements it. *)
Definition after (ev : event) (runningProcesses : Z) : Z :=
  match ev with
  | ChildExit _ _ => runningProcesses - 1
  | SignalReceived _ => runningProcesses
  end.

(** The [for runningProcesses > 0 { select ... }] loop over the events in
    the order the [select] takes them.  [Blocked]: the loop waits on both
    channels and nothing more arrives. *)
Inductive wait := Finished | Blocked.

Fixpoint eventLoop (os : OS) (events : list event) (runningProcesses : Z)
    (closing : bool) : Run wait :=
  if runningProcesses >? 0 then
    match events with
    | [] => ret Blocked
    | ev :: rest =>
        closing' <- select os ev closing ;;
        eventLoop os rest (after ev runningProcesses) closing'
    end
  else ret Finished.

(** [proc.err != nil] read through a map entry. *)
Definition hasErr (app : multirun) (entry : Z * nat) : bool :=
  match objects app !! snd entry with
  | Some p => match err p with Some _ => true | None => false end
  | None => false
  end.

(** [handleEvents]; [None] when the loop never ends. *)
Definition handleEvents (os : OS) (events : list event) : Run (option bool) :=
  emit Notify ;;
  app <- get ;;
  w <- eventLoop os events (Z.of_nat (size (subprocesses app))) false ;;
  match w with
  | Blocked => ret None
  | Finished =>
      app' <- get ;;
      ret (Some (existsb (hasErr app') (map_to_list (subprocesses app'))))
  end.

(** [main] from [commands := flag.Args()] on; [Exit n] is [os.Exit(n)].
    The lines of [main] in front of it, [flag.Parse()] and [setSubreaper],
    are in [Entry], which gives the whole function. *)
Inductive outcome := Exit (code : Z) | Waiting.

Definition body (os : OS) (commands : list (list rune))
    (events : list event) : Run outcome :=
  if (length commands =? 0)%nat then
    emit (Stderr Usage) ;;
    ret (Exit 2)
  else
    e <- startSubprocesses os commands ;;
    match e with
    | Some _ =>
        emit (Stderr StartupError) ;;
        ret (Exit 2)
    | None =>
        app <- get ;;
        if (size (subprocesses app) =? 0)%nat then
          logf NoneStarted ;;
          ret (Exit 1)
        else
          hadErrors <- handleEvents os events ;;
          match hadErrors with
          | None => ret Waiting
          | Some true =>
              emit (Stderr EndedAbnormally) ;;
              ret (Exit 1)
          | Some false =>
              logf AllExitedOk ;;
              ret (Exit 0)
          end
    end.

Definition main (os : OS) (v : bool) (commands : list (list rune))
    (events : list event) : result outcome :=
  body os commands events (Multirun v [] ∅).

End Supervisor.

(** ** What the verification reads off a run *)

Module Observations.
Import Rune Syscall Classifier Supervisor.

(** The signals of the calls of [shutdown] in a trace, in order. *)
Definition broadcasts (t : list effect) : list Z :=
  omap (fun e => match e with CallShutdown sig => Some sig | _ => None end) t.

(** The calls of [cmd.Start()] in a trace, in order, with their outcomes. *)
Definition startsOf (t : list effect) : list (list rune * option Z) :=
  omap (fun e => match e with Start cmd r => Some (cmd, r) | _ => None end) t.

(** The calls of [cmd.Start()] for the commands [cmds], the first of which
    is the [i]-th command of its batch. *)
Fixpoint attempts (os : OS) (i : nat) (cmds : list (list rune))
    : list (list rune * option Z) :=
  match cmds with
  | [] => []
  | cmd :: rest => (cmd, osStart os i cmd) :: attempts os (S i) rest
  end.

(** The children these calls start: pid and command, in order. *)
Fixpoint launched (os : OS) (i : nat) (cmds : list (list rune))
    : list (Z * list rune) :=
  match cmds with
  | [] => []
  | cmd :: rest =>
      match osStart os i cmd with
      | Some pid => (pid, cmd) :: launched os (S i) rest
      | None => launched os (S i) rest
      end
  end.

(** The map once the children were registered one after the other, the
    first of them under the pointer [next]. *)
Fixpoint registerAll (children : list (Z * list rune)) (next : nat)
    (m : gmap Z nat) : gmap Z nat :=
  match children with
  | [] => m
  | child :: rest => registerAll rest (S next) (<[fst child := next]> m)
  end.

(** The effects of the launch phase and of the messages of [main]: no
    [Notify], no [CallShutdown], no [Kill]. *)
Definition launchEffect (e : effect) : Prop :=
  match e with
  | Start _ _ | Stderr _ | Stdout _ => True
  | Notify | CallShutdown _ | Kill _ _ _ => False
  end.

(** The entry of a freshly launched child. *)
Definition fresh (child : Z * list rune) : subprocess :=
  Subprocess (fst child) (snd child) true None.

(** The signal of the broadcast an event triggers while [closing] is
    false. *)
Definition broadcastSignal (ev : event) : Z :=
  match ev with
  | ChildExit _ _ => SIGTERM
  | SignalReceived sig => sig
  end.

(** The application state once the exit of [proc] was classified. *)
Definition marked (app : multirun) (proc : nat) (waitErr : option error)
    : multirun :=
  Multirun (verbose app)
    (alter (fun p => Subprocess (cmdPid p) (command p) false
                       (if isNormalExit waitErr then None else Some Errorf))
       proc (objects app))
    (subprocesses app).

(** The effects of a broadcast started with the state [app]. *)
Definition kills (os : OS) (sig : Z) (app : multirun) : list effect :=
  flat_map (signalOne os app sig) (map_to_list (subprocesses app)).

(** The events a loop entered with [runningProcesses] takes. *)
Fixpoint consumed (runningProcesses : Z) (events : list event)
    : list event :=
  if runningProcesses >? 0 then
    match events with
    | [] => []
    | ev :: rest => ev :: consumed (after ev runningProcesses) rest
    end
  else [].

(** A subprocess entry once its exit was classified. *)
Definition classified (waitErr : option error) (p : subprocess)
    : subprocess :=
  Subprocess (cmdPid p) (command p) false
    (if isNormalExit waitErr then None else Some Errorf).

(** The store after the exits among [evs] were classified, in order. *)
Fixpoint settle (evs : list event) (objs : list subprocess)
    : list subprocess :=
  match evs with
  | [] => objs
  | ChildExit proc waitErr :: rest =>
      settle rest (alter (classified waitErr) proc objs)
  | SignalReceived _ :: rest => settle rest objs
  end.

(** The completion events of a sequence: pointer and wait error. *)
Fixpoint exits (evs : list event) : list (nat * option error) :=
  match evs with
  | [] => []
  | ChildExit proc waitErr :: rest => (proc, waitErr) :: exits rest
  | SignalReceived _ :: rest => exits rest
  end.

(** A supervisor with two launched children, both up. *)
Definition twoSleepers : multirun :=
  Multirun false
    [fresh (100, Commands.sleep5); fresh (101, Commands.sleep5)]
    (<[101 := 1%nat]> (<[100 := 0%nat]> ∅)).

(** Wait errors of a child: exit status 1, death by SIGTERM. *)
Definition exitedOne : option error :=
  Some (ExitError (SysWaitStatus 0x0100)).
Definition killedByTerm : option error :=
  Some (ExitError (SysWaitStatus 0x000F)).

(** Sample answers of the operating system: the [i]-th start yields pid
    [100 + i] and every signal is delivered. *)
Definition obligingOS : OS :=
  {| osStart := fun i _ => Some (100 + Z.of_nat i);
     osKill := fun _ _ => None |}.

(** No command can be started; signals would be delivered. *)
Definition barrenOS : OS :=
  {| osStart := fun _ _ => None;
     osKill := fun _ _ => None |}.

End Observations.

(** ** The earlier [main]

    The version of the program that has no [isNormalExit] classifies an
    exit inside its event loop, by setting [proc.error].  [exitError] is
    the value of [proc.error] after that block, for an entry whose flag
    was still unset, as a function of [res.err]. *)

Module Earlier.
Import Syscall Classifier.


End Earlier.

(** ** Further readings of a run *)

Module Readings.
Import Rune Syscall Classifier Supervisor Observations.

(** A trace without its lines on standard output. *)
Definition silent (t : list effect) : list effect :=
  omap (fun e => match e with Stdout _ => None | _ => Some e end) t.

(** The application state with the [verbose] flag off. *)
Definition quiet (app : multirun) : multirun :=
  Multirun false (objects app) (subprocesses app).

(** A method is oblivious of [verbose] when turning the flag off changes
    neither its value nor what it does to the subprocesses and the map,
    and removes from its trace the lines on standard output only. *)
Definition Oblivious {A} (m : Run A) : Prop :=
  forall app,
    value (m (quiet app)) = value (m app) /\
    final (m (quiet app)) = quiet (final (m app)) /\
    trace (m (quiet app)) = silent (trace (m app)).

(** The targets of the signals sent in a trace, in order. *)
Definition killTargets (t : list effect) : list Z :=
  omap (fun e => match e with Kill target _ _ => Some target | _ => None end)
    t.

(** Every map entry leads to a subprocess that carries the entry's pid
    and is marked up.  Nothing is said of [err]: in the program the waiter
    of a child that is already reaped may have stored its wait error. *)
Definition launchedState (app : multirun) : Prop :=
  forall pid proc,
    subprocesses app !! pid = Some proc ->
    exists p, objects app !! proc = Some p /\ cmdPid p = pid /\
              up p = true.

(** Every subprocess is reachable through the map under its own pid,
    unless a subprocess registered later took the entry of that pid. *)
Definition latestKept (app : multirun) : Prop :=
  forall proc p,
    objects app !! proc = Some p ->
    exists proc', subprocesses app !! cmdPid p = Some proc' /\
                  (proc <= proc')%nat.

(** The wait status of an exit with the given code, and of a death by the
    given signal, as wait(2) encodes them. *)
Definition exitedWith (code : Z) : option error :=
  Some (ExitError (SysWaitStatus (Z.shiftl code 8))).
Definition killedBy (sig : Z) : option error :=
  Some (ExitError (SysWaitStatus sig)).

End Readings.

(** ** [main] from its first line

    [main] begins with [flag.Parse()] and [setSubreaper(verbose)].  The
    flag package is Go's and its reading of the process arguments is
    taken by its outcome: with the [ExitOnError] handling of
    [flag.CommandLine], an undefined flag or a bad flag value prints the
    error and the usage on standard error and ends the process with code
    2; [-h] or [-help] prints the usage and ends it with code 0; otherwise
    [flag.Parse] returns, [verbose] is set and [flag.Args()] holds the
    remaining arguments. *)

Module Entry.
Import Rune Syscall Classifier Supervisor.
Local Open Scope run_scope.

Inductive parse :=
| ParseFailed
| ParseHelp
| Parsed (v : bool) (commands : list (list rune)).

(** [setSubreaper(verbose)]; [errno] is the error number the [prctl]
    system call returns. *)
Definition setSubreaper (errno : Z) : Run unit :=
  if negb (errno =? 0) then logf (SubreaperFailed errno)
  else logf SubreaperOk.

(** The whole of [main]: [p] is the outcome of [flag.Parse()], and after
    [setSubreaper] the rest is [Supervisor.body].  When the process ends
    inside [flag.Parse] no application state exists yet; the result then
    carries the empty one. *)
Definition main (p : parse) (errno : Z) (os : OS)
    (events : list event) : result outcome :=
  match p with
  | ParseFailed =>
      Result (Exit 2) (Multirun false [] ∅) [Stderr FlagError; Stderr Usage]
  | ParseHelp => Result (Exit 0) (Multirun false [] ∅) [Stderr Usage]
  | Parsed v commands =>
      (setSubreaper errno ;; body os commands events) (Multirun v [] ∅)
  end.

End Entry.

(* ===================================================================== *)
(** * Part II: verification                                               *)
(* ===================================================================== *)

(** ** The validator *)

Module ValidatorFacts.
Import Rune Validator Commands.

Ltac eqb_cases :=
  repeat match goal with
  | |- context [?a =? ?b] => destruct (Z.eqb_spec a b); simpl in *; subst
  | H : context [?a =? ?b] |- _ =>
      destruct (Z.eqb_spec a b); simpl in *; subst
  end.

(** When does one iteration return true. *)
Lemma step_Chained (st : scan) (r : rune) :
  step st r = Chained <-> st = start /\ isOperator r = true.
Proof.
  destruct st as [q e]. unfold step, start, isQuote, isOperator,
    NONE, BACKSLASH, SQUOTE, DQUOTE, SEMI, PIPE, AMP. simpl.
  split.
  - destruct e; [discriminate|].
    eqb_cases; try discriminate; try lia; intros _; split; reflexivity.
  - intros [Hst Hop]. inversion Hst; subst. simpl in *.
    eqb_cases; try discriminate; try lia; reflexivity.
Qed.

Lemma track_Continue (st st' : scan) (r : rune) :
  step st r = Continue st' -> track st r = st'.
Proof. unfold track. intros ->. reflexivity. Qed.

(** The loop returns true exactly when some iteration does; the
    iterations before it went on with the tracked variables. *)
Lemma scanFrom_true_iff (command : list rune) : forall st,
  scanFrom st command = true <->
  exists i r, command !! i = Some r /\
              step (fold_left track (take i command) st) r = Chained.
Proof.
  induction command as [|c rest IH]; intros st; simpl.
  - split; [discriminate|]. intros (i & r & Hi & _).
    rewrite lookup_nil in Hi. discriminate.
  - destruct (step st c) as [|st'] eqn:Hstep.
    + split; [|reflexivity]. intros _. exists 0%nat, c. split; [reflexivity|].
      exact Hstep.
    + rewrite IH. split.
      * intros (i & r & Hi & Hr). exists (S i), r. split; [exact Hi|].
        simpl. rewrite (track_Continue _ _ _ Hstep). exact Hr.
      * intros (i & r & Hi & Hr). destruct i as [|i].
        -- simpl in Hi, Hr. inversion Hi; subst. congruence.
        -- exists i, r. split; [exact Hi|]. simpl in Hr.
           rewrite (track_Continue _ _ _ Hstep) in Hr. exact Hr.
Qed.

Lemma scanFrom_false_track (a : list rune) : forall st b,
  scanFrom st a = false ->
  scanFrom st (a ++ b) = scanFrom (fold_left track a st) b.
Proof.
  induction a as [|c rest IH]; intros st b H; simpl in *; [reflexivity|].
  unfold track at 2. destruct (step st c) as [|st']; [discriminate|].
  apply IH, H.
Qed.



(** *** The two scanners side by side *)

(** On a rune that is no backslash inside a quote, the validator's update
    of the scan variables is the specification's. *)
Lemma track_agree (st : scan) (r : rune) :
  plain st -> (r = BACKSLASH -> inQuote st = NONE) ->
  track st r = SpecScanner.track st r /\ plain (track st r).
Proof.
  destruct st as [q e]. unfold plain, track, SpecScanner.track, step.
  simpl. intros Hplain Hback.
  destruct (Z.eqb_spec q NONE) as [Hq|Hq]; simpl.
  - subst q. destruct e; simpl; [split; [reflexivity|intros; reflexivity]|].
    destruct (Z.eqb_spec r BACKSLASH); simpl;
      [split; [reflexivity|intros H; contradiction H; reflexivity]|].
    destruct (isQuote r); simpl; [split; [reflexivity|intros; reflexivity]|].
    destruct (isOperator r); simpl; split; auto.
  - rewrite (Hplain Hq).
    destruct (Z.eqb_spec r BACKSLASH) as [Hb|Hb]; [contradiction (Hback Hb)|].
    destruct (r =? q); simpl; split; auto.
Qed.

Lemma tracks_agree (command : list rune) :
  forall st,
    plain st ->
    (forall i, command !! i = Some BACKSLASH ->
       inQuote (fold_left SpecScanner.track (take i command) st) = NONE) ->
    forall i,
      fold_left track (take i command) st
      = fold_left SpecScanner.track (take i command) st.
Proof.
  induction command as [|c rest IH]; intros st Hplain Hback i.
  - rewrite take_nil. reflexivity.
  - destruct i as [|i]; [reflexivity|]. simpl.
    destruct (track_agree st c Hplain) as [Heq Hplain'].
    { intros ->. apply (Hback 0%nat). reflexivity. }
    rewrite <- Heq. apply IH; [exact Hplain'|].
    intros j Hj. rewrite Heq. apply (Hback (S j)). exact Hj.
Qed.

(** On a rune that is no backslash inside single quotes, the validator's
    update of the scan variables is the one of the amended reading. *)
Lemma track_agree_amended (st : scan) (r : rune) :
  AmendedScanner.sound st ->
  (r = BACKSLASH -> inQuote st <> SQUOTE) ->
  track st r = AmendedScanner.track st r /\
  AmendedScanner.sound (track st r).
Proof.
  destruct st as [q e].
  unfold AmendedScanner.sound, track, AmendedScanner.track, step.
  simpl. intros Hsound Hback.
  destruct (Z.eqb_spec q SQUOTE) as [Hq|Hq].
  - rewrite (Hsound Hq). subst q.
    destruct (Z.eqb_spec r BACKSLASH) as [Hb|Hb];
      [contradiction (Hback Hb); reflexivity|].
    change (negb (SQUOTE =? NONE)) with true. cbv iota.
    destruct (r =? SQUOTE); simpl; split; auto; discriminate.
  - destruct e; simpl; [split; [reflexivity|intros; reflexivity]|].
    destruct (Z.eqb_spec r BACKSLASH); simpl;
      [split; [reflexivity|intros; contradiction]|].
    destruct (Z.eqb_spec q NONE) as [Hq0|Hq0]; simpl.
    + destruct (isQuote r); simpl; [split; [reflexivity|intros; reflexivity]|].
      destruct (isOperator r); simpl; split; auto.
    + destruct (r =? q); simpl; split; auto.
Qed.

Lemma tracks_agree_amended (command : list rune) :
  forall st,
    AmendedScanner.sound st ->
    (forall i, command !! i = Some BACKSLASH ->
       inQuote (fold_left AmendedScanner.track (take i command) st)
         <> SQUOTE) ->
    forall i,
      fold_left track (take i command) st
      = fold_left AmendedScanner.track (take i command) st.
Proof.
  induction command as [|c rest IH]; intros st Hsound Hback i.
  - rewrite take_nil. reflexivity.
  - destruct i as [|i]; [reflexivity|]. simpl.
    destruct (track_agree_amended st c Hsound) as [Heq Hsound'].
    { intros ->. apply (Hback 0%nat). reflexivity. }
    rewrite <- Heq. apply IH; [exact Hsound'|].
    intros j Hj. rewrite Heq. apply (Hback (S j)). exact Hj.
Qed.

(** *** The verdict against the positions of the command *)

(** The verdict against the validator's own scan of the command. *)
Lemma isChained_true_iff (command : list rune) :
  isChained command = true <-> exists i, freeOperatorAt track command i.
Proof.
  unfold isChained. rewrite scanFrom_true_iff. split.
  - intros (i & r & Hi & Hr). apply step_Chained in Hr as [Hst Hop].
    exists i, r. auto.
  - intros (i & r & Hi & Hop & Hst). exists i, r. split; [exact Hi|].
    apply step_Chained. auto.
Qed.

(** C1, as stated, fails, with quoted spans read as the specification
    defines them (only the matching quote ends a span, a backslash inside
    it is inert).  In the command of the repository's test named Escaped
    quote, which must be accepted, the ampersand then stands outside any
    quoted span, and [isChained] returns false.  In [echo '\'; ls] the
    semicolon stands after a closed single-quoted word and is not preceded
    by a backslash, and [isChained] returns false as well: it takes the
    backslash inside the quotes as escaping the closing quote. *)
Lemma isChained_misses_spec_free_operator :
  ~ (isChained escapedQuoteCmd = true <->
     exists i, freeOperatorAt SpecScanner.track escapedQuoteCmd i) /\
  ~ (isChained quotedBackslashCmd = true <->
     exists i, freeOperatorAt SpecScanner.track quotedBackslashCmd i).
Proof.
  split.
  - intros [_ Hback].
    assert (H : isChained escapedQuoteCmd = true).
    { apply Hback. exists 10%nat, AMP. repeat split. }
    vm_compute in H. discriminate H.
  - intros [_ Hback].
    assert (H : isChained quotedBackslashCmd = true).
    { apply Hback. exists 8%nat, SEMI. repeat split. }
    vm_compute in H. discriminate H.
Qed.

(** C1, amended: on a command with no backslash inside a single-quoted
    span, [isChained] returns true if and only if the command holds one of
    the operators at a position that is outside any quoted span and not
    escaped, where a backslash escapes the next rune outside quotes and
    inside double quotes (an escaped double quote does not end its span);
    in particular it returns false when every operator is inside an open
    quote or escaped.  Spans and escapes are those of [AmendedScanner],
    which is written apart from the program.  On a command with no
    backslash inside any quoted span, the equivalence holds with the
    positions read as the specification reads them.  What [isChained]
    returns when a backslash stands inside single quotes is left open. *)
Theorem isChained_iff_free_operator (command : list rune) :
  (forall i, command !! i = Some BACKSLASH ->
     inQuote (stateBefore AmendedScanner.track command i) <> SQUOTE) ->
  (isChained command = true <->
   exists i, freeOperatorAt AmendedScanner.track command i) /\
  ((forall i r, command !! i = Some r -> isOperator r = true ->
      coveredAt AmendedScanner.track command i) ->
   isChained command = false) /\
  ((forall i, command !! i = Some BACKSLASH ->
      inQuote (stateBefore SpecScanner.track command i) = NONE) ->
   (isChained command = true <->
    exists i, freeOperatorAt SpecScanner.track command i)).
Proof.
  intros Hsingle. pose proof (isChained_true_iff command) as Hiff.
  assert (Hamended : forall i,
    stateBefore track command i
    = stateBefore AmendedScanner.track command i).
  { apply tracks_agree_amended; [|exact Hsingle]. intros H. reflexivity. }
  assert (Hiff' : isChained command = true <->
                  exists i, freeOperatorAt AmendedScanner.track command i).
  { rewrite Hiff. unfold freeOperatorAt.
    split; intros (i & r & Hi & Hop & Hst); exists i, r;
      rewrite Hamended in *; auto. }
  split; [exact Hiff'|]. split.
  - intros Hcov. destruct (isChained command) eqn:E; [|reflexivity].
    destruct (proj1 Hiff' eq_refl) as (i & r & Hi & Hop & Hst).
    destruct (Hcov i r Hi Hop) as [Hq | He]; rewrite Hst in *.
    + contradiction Hq. reflexivity.
    + discriminate He.
  - intros Hback. rewrite Hiff.
    assert (Hsame : forall i,
      stateBefore track command i = stateBefore SpecScanner.track command i).
    { apply tracks_agree; [|exact Hback]. intros H. reflexivity. }
    unfold freeOperatorAt. split; intros (i & r & Hi & Hop & Hst);
      exists i, r; rewrite Hsame in *; auto.
Qed.

Lemma isChained_iff_free_operator_witness :
  isChained escapedQuoteCmd = false.
Proof.
  assert (Hsingle : forall i, escapedQuoteCmd !! i = Some BACKSLASH ->
            inQuote (stateBefore AmendedScanner.track escapedQuoteCmd i)
              <> SQUOTE).
  { intros i Hi.
    do 16 (destruct i as [|i]; [vm_compute; discriminate|]).
    discriminate Hi. }
  apply (proj1 (proj2
           (isChained_iff_free_operator escapedQuoteCmd Hsingle))).
  intros i r Hi Hop.
  do 16 (destruct i as [|i];
    [ injection Hi as <-;
      first [ vm_compute in Hop; discriminate Hop
            | left; vm_compute; discriminate ] | ]).
  discriminate Hi.
Defined.

(** *** The rules of the scan *)

(** C6, as stated, fails.  With a double quote open and no escape pending,
    a backslash is not inert: it sets [escaped]; and the matching quote
    that follows does not close the quote.  On the command of the
    repository's test named Escaped quote the verdict therefore differs
    from a scan by the stated rules. *)
Lemma backslash_inside_quote_not_inert :
  ~ (forall q r, q <> NONE -> r <> q ->
       step (Scan q false) r = Continue (Scan q false)) /\
  step (Scan DQUOTE false) BACKSLASH = Continue (Scan DQUOTE true) /\
  step (Scan DQUOTE true) DQUOTE = Continue (Scan DQUOTE false) /\
  isChained escapedQuoteCmd = false /\
  SpecScanner.isChained escapedQuoteCmd = true.
Proof.
  split; [|repeat split].
  intros H. specialize (H DQUOTE BACKSLASH).
  assert (Hd : step (Scan DQUOTE false) BACKSLASH
               = Continue (Scan DQUOTE false)).
  { apply H; unfold DQUOTE, NONE, BACKSLASH; lia. }
  vm_compute in Hd. discriminate Hd.
Qed.

(** C6, amended: an unescaped backslash escapes the following rune
    outside a quote and inside a double quote, and the escaped rune is
    skipped whatever it is (1, 2); inside a single or a double quote,
    every unescaped rune other than a backslash and the matching quote is
    inert, the operators included (3); the unescaped matching quote closes
    the quote (4); no rune makes the scan return true (5); and no rune
    but the matching quote closes the quote (6).  What a backslash inside
    single quotes does is left open here. *)
Theorem step_inside_quote (st : scan) (r : rune) :
  (inQuote st = NONE \/ inQuote st = DQUOTE ->
   escaped st = false -> r = BACKSLASH ->
   step st r = Continue (Scan (inQuote st) true)) /\
  (inQuote st = NONE \/ inQuote st = DQUOTE ->
   escaped st = true ->
   step st r = Continue (Scan (inQuote st) false)) /\
  (inQuote st <> NONE ->
   escaped st = false -> r <> BACKSLASH -> r <> inQuote st ->
   step st r = Continue st) /\
  (inQuote st <> NONE ->
   escaped st = false -> r <> BACKSLASH -> r = inQuote st ->
   step st r = Continue (Scan NONE false)) /\
  (inQuote st <> NONE -> step st r <> Chained) /\
  (inQuote st <> NONE ->
   forall st', step st r = Continue st' -> inQuote st' = NONE ->
     r = inQuote st).
Proof.
  destruct st as [q e]. simpl. unfold step. simpl.
  assert (Hclose : forall q' e' st', q' <> NONE ->
            Continue (Scan q' e') = Continue st' -> inQuote st' = NONE ->
            False).
  { intros q' e' st' Hq' Hst H0. inversion Hst; subst. contradiction. }
  destruct e; simpl;
    [|destruct (Z.eqb_spec r BACKSLASH) as [Hb|Hb];
      [|destruct (Z.eqb_spec q NONE) as [Hq0|Hq0]; simpl;
        [|destruct (Z.eqb_spec r q) as [Hrq|Hrq]]]];
    repeat apply conj; try discriminate; try congruence;
    try (intros Hq st' Hst H0; destruct (Hclose _ _ _ Hq Hst H0));
    auto.
Qed.

Lemma step_inside_quote_witness :
  step (Scan DQUOTE false) AMP = Continue (Scan DQUOTE false) /\
  step (Scan DQUOTE false) BACKSLASH = Continue (Scan DQUOTE true) /\
  step (Scan DQUOTE true) DQUOTE = Continue (Scan DQUOTE false).
Proof.
  repeat apply conj.
  - apply (step_inside_quote (Scan DQUOTE false) AMP); simpl;
      unfold DQUOTE, AMP, NONE, BACKSLASH; try lia; reflexivity.
  - apply (step_inside_quote (Scan DQUOTE false) BACKSLASH); simpl;
      auto.
  - apply (step_inside_quote (Scan DQUOTE true) DQUOTE); simpl; auto.
Defined.

(** *** Quotes that are never closed *)



End ValidatorFacts.

(** ** The exit classifier *)

Module ClassifierFacts.
Import Syscall Classifier.

Ltac split_ands :=
  lazymatch goal with
  | |- _ /\ _ => split; [|split_ands]
  | _ => idtac
  end.

(** The accessors of a wait status against its bit fields. *)
Lemma WaitStatus_fields (ws : Z) :
  Exited ws = (Z.land ws 0x7F =? 0) /\
  Signaled ws = negb (Z.land ws 0x7F =? 0x7F) && negb (Z.land ws 0x7F =? 0) /\
  (Exited ws = true -> ExitStatus ws = Z.land (Z.shiftr ws 8) 0xFF) /\
  (Signaled ws = true -> Signal ws = Z.land ws 0x7F).
Proof.
  unfold ExitStatus, Signal, Exited, Signaled, mask, exited, stopped, shift.
  repeat apply conj; try reflexivity.
  - intros ->. reflexivity.
  - intros ->. reflexivity.
Qed.

(** On a wait status, normal means: low seven bits zero and status byte
    zero, or low seven bits equal to SIGINT or SIGTERM. *)
Lemma isNormalExit_WaitStatus (ws : Z) :
  isNormalExit (Some (ExitError (SysWaitStatus ws))) = true <->
  (Z.land ws 0x7F = 0 /\ Z.land (Z.shiftr ws 8) 0xFF = 0) \/
  Z.land ws 0x7F = SIGINT \/ Z.land ws 0x7F = SIGTERM.
Proof.
  unfold isNormalExit, ExitStatus, Signal, Exited, Signaled,
    mask, exited, stopped, shift, SIGINT, SIGTERM.
  destruct (Z.eqb_spec (Z.land ws 127) 0) as [H0|H0]; simpl.
  - rewrite H0. simpl. rewrite Z.eqb_eq. split; [auto|].
    intros [[_ H]|[H|H]]; [exact H|discriminate H|discriminate H].
  - destruct (Z.eqb_spec (Z.land ws 127) 127) as [H1|H1]; simpl.
    + rewrite H1. split; [discriminate|].
      intros [[H _]|[H|H]]; discriminate H.
    + rewrite orb_true_iff, !Z.eqb_eq. split; [auto|].
      intros [[H _]|H]; [contradiction|exact H].
Qed.

(** C4: [isNormalExit] returns true if and only if the child exited with
    status 0 or was terminated by SIGINT or SIGTERM; every other exit
    status, every other signal and every unrecognised encoding (a stopped
    status, a [Sys()] value that is no wait status, a wait error that is
    no exit error) is classified abnormal. *)
Theorem isNormalExit_iff_normalTermination (e : option error) :
  (isNormalExit e = true <-> normalTermination (terminationOf e)) /\
  (forall code, terminationOf e = ExitedWithCode code ->
     isNormalExit e = (code =? 0)) /\
  (forall sig, terminationOf e = KilledBySignal sig ->
     isNormalExit e = (sig =? SIGINT) || (sig =? SIGTERM)) /\
  (terminationOf e = Unknown -> isNormalExit e = false).
Proof.
  unfold normalTermination.
  destruct e as [[[ws|]|]|]; simpl terminationOf.
  - pose proof (isNormalExit_WaitStatus ws) as Hws.
    unfold SIGINT, SIGTERM in *.
    destruct (Z.eqb_spec (Z.land ws 127) 0) as [H0|H0];
      [|destruct (Z.eqb_spec (Z.land ws 127) 127) as [H1|H1]].
    + split_ands.
      * rewrite Hws. split.
        -- intros [[_ H]|[H|H]]; [left; congruence|lia|lia].
        -- intros [H|[H|H]]; [|discriminate H|discriminate H].
           left. split; [exact H0|]. congruence.
      * intros code [= <-].
        destruct (Z.eqb_spec (Z.land (Z.shiftr ws 8) 255) 0) as [Hc|Hc].
        -- apply Hws. auto.
        -- apply not_true_is_false. rewrite Hws. lia.
      * discriminate.
      * discriminate.
    + split_ands.
      * rewrite Hws. split.
        -- intros [[H _]|[H|H]]; lia.
        -- intros [H|[H|H]]; discriminate H.
      * discriminate.
      * discriminate.
      * intros _. apply not_true_is_false. rewrite Hws. lia.
    + split_ands.
      * rewrite Hws. split.
        -- intros [[H _]|[H|H]]; [lia|right; left|right; right]; congruence.
        -- intros [H|[H|H]]; [discriminate H|right; left|right; right];
             congruence.
      * discriminate.
      * intros sig [= <-].
        destruct (Z.eqb_spec (Z.land ws 127) 2) as [H2|H2]; simpl.
        -- apply Hws. auto.
        -- destruct (Z.eqb_spec (Z.land ws 127) 15) as [H3|H3].
           ++ apply Hws. auto.
           ++ apply not_true_is_false. rewrite Hws. lia.
      * discriminate.
  - split_ands; try discriminate; try reflexivity.
    split; [discriminate|]. intros [H|[H|H]]; discriminate H.
  - split_ands; try discriminate; try reflexivity.
    split; [discriminate|]. intros [H|[H|H]]; discriminate H.
  - split_ands; try discriminate; try reflexivity.
    + split; auto.
    + intros code [= <-]. reflexivity.
Qed.

End ClassifierFacts.

(** ** The supervisor *)

Module SupervisorFacts.
Import Rune Syscall Classifier Supervisor Observations Commands.
Local Open Scope run_scope.

(** *** Traces *)

Lemma broadcasts_app (a b : list effect) :
  broadcasts (a ++ b) = broadcasts a ++ broadcasts b.
Proof. apply omap_app. Qed.

Lemma startsOf_app (a b : list effect) :
  startsOf (a ++ b) = startsOf a ++ startsOf b.
Proof. apply omap_app. Qed.

Lemma logf_run (l : line) (app : multirun) :
  value (logf l app) = tt /\ final (logf l app) = app /\
  broadcasts (trace (logf l app)) = [] /\
  startsOf (trace (logf l app)) = [] /\
  forall e, e ∈ trace (logf l app) -> e = Stdout l.
Proof.
  unfold logf. simpl. destruct (verbose app); simpl; repeat apply conj;
    try reflexivity; intros e He.
  - apply list_elem_of_singleton in He. exact He.
  - apply elem_of_nil in He. contradiction.
Qed.

(** *** The shutdown broadcast *)

(** What one map entry contributes to a broadcast. *)
Lemma signalOne_effects (os : OS) (app : multirun) (sig : Z)
    (entry : Z * nat) (e : effect) :
  e ∈ signalOne os app sig entry <->
  isUp app (snd entry) = true /\
  (e = Kill (- fst entry) sig (osKill os (- fst entry) sig) \/
   exists errno, osKill os (- fst entry) sig = Some errno /\
                 errno <> ESRCH /\ e = Stderr (KillFailed (fst entry) errno)).
Proof.
  unfold signalOne. destruct (isUp app (snd entry)).
  - destruct (osKill os (- fst entry) sig) as [errno|].
    + destruct (Z.eqb_spec errno ESRCH) as [Hs|Hs].
      * rewrite list_elem_of_singleton. split.
        -- intros ->. auto.
        -- intros [_ [H|(x & [= <-] & Hx & _)]]; [exact H|contradiction].
      * rewrite elem_of_cons, list_elem_of_singleton. split.
        -- intros [->| ->]; split; auto. right. exists errno. auto.
        -- intros [_ [H|(x & [= <-] & _ & Hx)]]; auto.
    + rewrite list_elem_of_singleton. split.
      * intros ->. auto.
      * intros [_ [H|(x & Hx & _)]]; [exact H|discriminate Hx].
  - split.
    + intros H. apply elem_of_nil in H. contradiction.
    + intros [H _]. discriminate H.
Qed.

Lemma broadcasts_signalOne (os : OS) (app : multirun) (sig : Z)
    (entries : list (Z * nat)) :
  broadcasts (flat_map (signalOne os app sig) entries) = [].
Proof.
  induction entries as [|entry rest IH]; [reflexivity|].
  simpl. rewrite broadcasts_app, IH, app_nil_r.
  unfold signalOne. destruct (isUp app (snd entry)); [|reflexivity].
  destruct (osKill os (- fst entry) sig) as [errno|]; [|reflexivity].
  destruct (errno =? ESRCH); reflexivity.
Qed.

Lemma shutdown_run (os : OS) (sig : Z) (app : multirun) :
  shutdown os sig app =
  Result tt app
    (CallShutdown sig
       :: flat_map (signalOne os app sig) (map_to_list (subprocesses app))).
Proof. reflexivity. Qed.

Lemma elem_of_flat_map {A B} (f : A -> list B) (l : list A) (y : B) :
  y ∈ flat_map f l <-> exists x, x ∈ l /\ y ∈ f x.
Proof.
  rewrite list_elem_of_In, in_flat_map. split.
  - intros (x & Hx & Hy). exists x. rewrite !list_elem_of_In. auto.
  - intros (x & Hx & Hy). exists x. rewrite <- !list_elem_of_In. auto.
Qed.

Lemma Kill_in_kills (os : OS) (sig : Z) (app : multirun)
    (target s : Z) (errno : option Z) :
  Kill target s errno ∈ kills os sig app <->
  exists pid proc,
    subprocesses app !! pid = Some proc /\ isUp app proc = true /\
    target = - pid /\ s = sig /\ errno = osKill os (- pid) sig.
Proof.
  unfold kills. rewrite elem_of_flat_map. split.
  - intros ([pid proc] & Hin & He).
    apply elem_of_map_to_list in Hin.
    apply signalOne_effects in He as [Hup [He|(x & _ & _ & He)]];
      [|discriminate He].
    simpl in *. inversion He; subst. exists pid, proc. auto.
  - intros (pid & proc & Hin & Hup & -> & -> & ->).
    exists (pid, proc). split; [apply elem_of_map_to_list, Hin|].
    apply signalOne_effects. simpl. auto.
Qed.

Lemma Stderr_in_kills (os : OS) (sig : Z) (app : multirun) (l : line) :
  Stderr l ∈ kills os sig app <->
  exists pid proc errno,
    subprocesses app !! pid = Some proc /\ isUp app proc = true /\
    osKill os (- pid) sig = Some errno /\ errno <> ESRCH /\
    l = KillFailed pid errno.
Proof.
  unfold kills. rewrite elem_of_flat_map. split.
  - intros ([pid proc] & Hin & He).
    apply elem_of_map_to_list in Hin.
    apply signalOne_effects in He as [Hup [He|(x & Hx & Hne & He)]];
      [discriminate He|].
    simpl in *. inversion He; subst. exists pid, proc, x. auto.
  - intros (pid & proc & errno & Hin & Hup & Hk & Hne & ->).
    exists (pid, proc). split; [apply elem_of_map_to_list, Hin|].
    apply signalOne_effects. simpl. split; [exact Hup|].
    right. exists errno. auto.
Qed.

Lemma broadcasts_kills (os : OS) (sig : Z) (app : multirun) :
  broadcasts (kills os sig app) = [].
Proof. apply broadcasts_signalOne. Qed.

(** C9: [shutdown] signals the entries still marked up and only those,
    each through the negated pid (its process group); a delivery failure
    ESRCH prints nothing, any other one is reported and nothing else is
    printed; whatever the failures, every entry marked up gets its signal,
    and the call returns with the application state unchanged. *)
Theorem shutdown_signals_alive_groups (os : OS) (sig : Z) (app : multirun) :
  let r := shutdown os sig app in
  (forall target s errno,
     Kill target s errno ∈ trace r <->
     exists pid proc,
       subprocesses app !! pid = Some proc /\ isUp app proc = true /\
       target = - pid /\ s = sig /\ errno = osKill os (- pid) sig) /\
  (forall l,
     Stderr l ∈ trace r <->
     exists pid proc errno,
       subprocesses app !! pid = Some proc /\ isUp app proc = true /\
       osKill os (- pid) sig = Some errno /\ errno <> ESRCH /\
       l = KillFailed pid errno) /\
  final r = app /\
  broadcasts (trace r) = [sig].
Proof.
  cbv zeta. rewrite shutdown_run. cbn [trace final].
  fold (kills os sig app). repeat apply conj.
  - intros target s errno. rewrite elem_of_cons, Kill_in_kills.
    split; [intros [H|H]; [discriminate H|exact H]|auto].
  - intros l. rewrite elem_of_cons, Stderr_in_kills.
    split; [intros [H|H]; [discriminate H|exact H]|auto].
  - reflexivity.
  - change (CallShutdown sig :: kills os sig app)
      with ([CallShutdown sig] ++ kills os sig app).
    rewrite broadcasts_app, broadcasts_kills. reflexivity.
Qed.

(** *** One event *)

Lemma alter_classified (waitErr : option error) (proc : nat)
    (objs : list subprocess) :
  alter (setErr (if isNormalExit waitErr then None else Some Errorf)) proc
    (alter (setUp false) proc objs)
  = alter (classified waitErr) proc objs.
Proof.
  rewrite list_alter_alter_eq. apply list_alter_ext; [|reflexivity].
  intros x _. reflexivity.
Qed.

Lemma onSignal_run (os : OS) (sig : Z) (closing : bool) (app : multirun) :
  onSignal os sig closing app =
  Result true app
    (if closing then []
     else trace (logf (ReceivedSignal sig) app)
            ++ CallShutdown sig :: kills os sig app).
Proof.
  unfold onSignal. destruct closing; simpl; [reflexivity|].
  unfold bind, logf, kills. simpl. rewrite app_nil_r. reflexivity.
Qed.

Lemma onExit_run (os : OS) (proc : nat) (waitErr : option error)
    (closing : bool) (app : multirun) :
  onExit os proc waitErr closing app =
  Result true (marked app proc waitErr)
    (trace (logf (if isNormalExit waitErr then ExitedNormally proc
                  else ExitedAbnormally proc) app)
     ++ (if closing then []
         else trace (logf OneExited app)
                ++ CallShutdown SIGTERM
                     :: kills os SIGTERM (marked app proc waitErr))).
Proof.
  unfold onExit, marked, kills.
  pose proof (alter_classified waitErr proc (objects app)) as Halt.
  unfold classified in Halt.
  destruct (isNormalExit waitErr); destruct closing;
    unfold bind, store, logf, shutdown, emit, ret; simpl;
    rewrite ?app_nil_r; rewrite <- Halt; reflexivity.
Qed.

Lemma select_value (os : OS) (ev : event) (closing : bool) (app : multirun) :
  value (select os ev closing app) = true.
Proof.
  destruct ev; unfold select; [rewrite onExit_run|rewrite onSignal_run];
    reflexivity.
Qed.

Lemma select_final (os : OS) (ev : event) (closing : bool) (app : multirun) :
  final (select os ev closing app)
  = Multirun (verbose app) (settle [ev] (objects app)) (subprocesses app).
Proof.
  destruct ev; unfold select; [rewrite onExit_run|rewrite onSignal_run];
    [reflexivity|]. destruct app; reflexivity.
Qed.

Lemma broadcasts_logf (l : line) (app : multirun) :
  broadcasts (trace (logf l app)) = [].
Proof. apply logf_run. Qed.

Lemma broadcasts_select (os : OS) (ev : event) (closing : bool)
    (app : multirun) :
  broadcasts (trace (select os ev closing app))
  = if closing then [] else [broadcastSignal ev].
Proof.
  destruct ev; unfold select; [rewrite onExit_run|rewrite onSignal_run];
    cbn [trace]; destruct closing;
    rewrite ?broadcasts_app, ?broadcasts_logf; try reflexivity.
  - simpl. unfold broadcasts at 1. simpl. fold (broadcasts
      (kills os SIGTERM (marked app proc waitErr))).
    unfold kills. rewrite broadcasts_signalOne. reflexivity.
  - simpl. unfold broadcasts at 1. simpl.
    fold (broadcasts (kills os sig app)).
    unfold kills. rewrite broadcasts_signalOne. reflexivity.
Qed.

(** *** The loop *)

Lemma eventLoop_nil (os : OS) (running : Z) (closing : bool)
    (app : multirun) :
  eventLoop os [] running closing app
  = Result (if running >? 0 then Blocked else Finished) app [].
Proof. simpl. destruct (running >? 0); reflexivity. Qed.

Lemma eventLoop_stop (os : OS) (events : list event) (running : Z)
    (closing : bool) (app : multirun) :
  running <= 0 ->
  eventLoop os events running closing app = Result Finished app [].
Proof.
  intros H. destruct events; simpl;
    destruct (Z.gtb_spec running 0); try lia; reflexivity.
Qed.

Lemma eventLoop_cons (os : OS) (ev : event) (rest : list event)
    (running : Z) (closing : bool) (app : multirun) :
  running > 0 ->
  eventLoop os (ev :: rest) running closing app =
  bind (select os ev closing)
    (fun closing' => eventLoop os rest (after ev running) closing') app.
Proof.
  intros H. simpl. destruct (Z.gtb_spec running 0); [reflexivity|lia].
Qed.

Lemma consumed_cons (ev : event) (rest : list event) (running : Z) :
  running > 0 ->
  consumed running (ev :: rest) = ev :: consumed (after ev running) rest.
Proof.
  intros H. simpl. destruct (Z.gtb_spec running 0); [reflexivity|lia].
Qed.

Lemma consumed_stop (events : list event) (running : Z) :
  running <= 0 -> consumed running events = [].
Proof.
  intros H. destruct events; simpl;
    destruct (Z.gtb_spec running 0); try lia; reflexivity.
Qed.

(** The state a loop ends in: every event it took is settled. *)
Lemma eventLoop_final (os : OS) (events : list event) :
  forall running closing app,
    final (eventLoop os events running closing app)
    = Multirun (verbose app)
        (settle (consumed running events) (objects app))
        (subprocesses app).
Proof.
  induction events as [|ev rest IH]; intros running closing app.
  - rewrite eventLoop_nil. simpl. destruct (running >? 0); destruct app;
      reflexivity.
  - destruct (Z_gt_le_dec running 0) as [Hr|Hr].
    + rewrite eventLoop_cons, consumed_cons by exact Hr.
      unfold bind. cbn [final]. rewrite IH, select_final. cbn [verbose
        objects subprocesses]. destruct ev; reflexivity.
    + rewrite eventLoop_stop, consumed_stop by exact Hr.
      destruct app; reflexivity.
Qed.

(** Once [closing] is set, a loop broadcasts no more. *)
Lemma eventLoop_closing_quiet (os : OS) (events : list event) :
  forall running app,
    broadcasts (trace (eventLoop os events running true app)) = [].
Proof.
  induction events as [|ev rest IH]; intros running app.
  - rewrite eventLoop_nil. reflexivity.
  - destruct (Z_gt_le_dec running 0) as [Hr|Hr].
    + rewrite eventLoop_cons by exact Hr. unfold bind. cbn [trace].
      rewrite broadcasts_app, broadcasts_select, select_value, IH.
      reflexivity.
    + rewrite eventLoop_stop by exact Hr. reflexivity.
Qed.

Lemma handleEvents_run (os : OS) (events : list event) (app : multirun) :
  trace (handleEvents os events app)
  = Notify :: trace (eventLoop os events
                       (Z.of_nat (size (subprocesses app))) false app).
Proof.
  unfold handleEvents, bind, emit, get. cbn [trace value final app_nil_r].
  simpl.
  destruct (value (eventLoop os events _ false app)); simpl;
    rewrite ?app_nil_r; reflexivity.
Qed.

(** Once [closing] is set, a loop only logs. *)
Lemma eventLoop_closing_logs (os : OS) (events : list event) :
  forall running app e,
    e ∈ trace (eventLoop os events running true app) ->
    exists l, e = Stdout l.
Proof.
  induction events as [|ev rest IH]; intros running app e He.
  - rewrite eventLoop_nil in He. apply elem_of_nil in He. contradiction.
  - destruct (Z_gt_le_dec running 0) as [Hr|Hr].
    + rewrite eventLoop_cons in He by exact Hr. unfold bind in He.
      cbn [trace] in He. apply elem_of_app in He as [He|He].
      * destruct ev; unfold select in He;
          [rewrite onExit_run in He|rewrite onSignal_run in He];
          cbn [trace] in He.
        -- rewrite app_nil_r in He. apply logf_run in He. eauto.
        -- apply elem_of_nil in He. contradiction.
      * rewrite select_value in He. eapply IH, He.
    + rewrite eventLoop_stop in He by exact Hr.
      apply elem_of_nil in He. contradiction.
Qed.

Lemma eventLoop_broadcasts (os : OS) (events : list event) (running : Z)
    (app : multirun) :
  broadcasts (trace (eventLoop os events running false app))
  = match consumed running events with
    | [] => []
    | ev :: _ => [broadcastSignal ev]
    end.
Proof.
  destruct events as [|ev rest].
  - rewrite eventLoop_nil. simpl. destruct (running >? 0); reflexivity.
  - destruct (Z_gt_le_dec running 0) as [Hr|Hr].
    + rewrite eventLoop_cons, consumed_cons by exact Hr. unfold bind.
      cbn [trace]. rewrite broadcasts_app, broadcasts_select, select_value,
        eventLoop_closing_quiet. reflexivity.
    + rewrite eventLoop_stop, consumed_stop by exact Hr. reflexivity.
Qed.

(** C3: a run of [handleEvents] calls [shutdown] at most once; when the
    loop takes a first event, that event triggers the call, and the rest
    of the run, entered with [closing] set, only logs (no second call, no
    signal sent) while it still classifies every completion event it
    takes. *)
Theorem handleEvents_broadcasts_once (os : OS) (events : list event)
    (app : multirun) :
  (length (broadcasts (trace (handleEvents os events app))) <= 1)%nat /\
  (forall ev rest,
     events = ev :: rest -> subprocesses app <> ∅ ->
     let n := Z.of_nat (size (subprocesses app)) in
     let first := select os ev false app in
     let later := eventLoop os rest (after ev n) true (final first) in
     trace (handleEvents os events app)
       = Notify :: trace first ++ trace later /\
     broadcasts (trace first) = [broadcastSignal ev] /\
     (forall e, e ∈ trace later -> exists l, e = Stdout l) /\
     objects (final later)
       = settle (consumed (after ev n) rest) (objects (final first))).
Proof.
  split.
  - rewrite handleEvents_run.
    change (Notify :: ?t) with ([Notify] ++ t).
    rewrite broadcasts_app, eventLoop_broadcasts. simpl.
    destruct (consumed _ events); simpl; lia.
  - intros ev rest -> Hne. cbv zeta.
    assert (Hn : Z.of_nat (size (subprocesses app)) > 0).
    { pose proof (proj2 (map_size_non_empty_iff (subprocesses app)) Hne).
      lia. }
    repeat apply conj.
    + rewrite handleEvents_run, eventLoop_cons by exact Hn.
      unfold bind. cbn [trace]. rewrite select_value. reflexivity.
    + apply broadcasts_select.
    + apply eventLoop_closing_logs.
    + rewrite eventLoop_final. reflexivity.
Qed.

Lemma handleEvents_broadcasts_once_witness :
  broadcasts (trace (select obligingOS (SignalReceived SIGINT) false
                       twoSleepers)) = [SIGINT].
Proof.
  assert (Hne : subprocesses twoSleepers <> ∅).
  { intros E. apply (f_equal (fun m => m !! 100)) in E.
    vm_compute in E. discriminate E. }
  exact (proj1 (proj2
    (proj2 (handleEvents_broadcasts_once obligingOS
              [SignalReceived SIGINT;
               ChildExit 0 (Some (ExitError (SysWaitStatus 2)));
               ChildExit 1 (Some (ExitError (SysWaitStatus 2)))]
              twoSleepers)
       _ _ eq_refl Hne))).
Defined.

(** C8: while no shutdown was triggered, a received signal is broadcast
    as it is: one call of [shutdown] with that very signal, which sends it
    to the group (negated pid) of every entry marked up and to nothing
    else; a completion event instead triggers one call with SIGTERM, sent
    to the groups of the entries still marked up once the completed one
    is marked down. *)
Theorem broadcast_carries_signal (os : OS) (app : multirun) :
  (forall sig,
     let r := select os (SignalReceived sig) false app in
     broadcasts (trace r) = [sig] /\
     forall target s errno,
       Kill target s errno ∈ trace r <->
       exists pid proc,
         subprocesses app !! pid = Some proc /\ isUp app proc = true /\
         target = - pid /\ s = sig /\ errno = osKill os (- pid) sig) /\
  (forall done waitErr,
     let r := select os (ChildExit done waitErr) false app in
     broadcasts (trace r) = [SIGTERM] /\
     forall target s errno,
       Kill target s errno ∈ trace r <->
       exists pid proc,
         subprocesses app !! pid = Some proc /\
         isUp (marked app done waitErr) proc = true /\
         target = - pid /\ s = SIGTERM /\
         errno = osKill os (- pid) SIGTERM).
Proof.
  split.
  - intros sig. cbv zeta. split; [apply broadcasts_select|].
    intros target s errno. unfold select. rewrite onSignal_run.
    cbn [trace]. rewrite elem_of_app, elem_of_cons, Kill_in_kills.
    split; [|auto]. intros [H|[H|H]]; [|discriminate H|exact H].
    apply logf_run in H. discriminate H.
  - intros done waitErr. cbv zeta. split; [apply broadcasts_select|].
    intros target s errno. unfold select. rewrite onExit_run.
    cbn [trace]. rewrite !elem_of_app, elem_of_cons, Kill_in_kills.
    split; [|auto]. intros [H|[H|[H|H]]]; [| |discriminate H|exact H];
      apply logf_run in H; discriminate H.
Qed.

(** *** The launcher *)

Lemma startFrom_chained (os : OS) (i : nat) (cmd : list rune)
    (rest : list (list rune)) (app : multirun) :
  Validator.isChained cmd = true ->
  startFrom os i (cmd :: rest) app = Result (Some Errorf) app [].
Proof. intros H. simpl. rewrite H. reflexivity. Qed.

(** A failed start is reported and the loop goes on with the next
    command, the application state untouched. *)
Lemma startFrom_failed (os : OS) (i : nat) (cmd : list rune)
    (rest : list (list rune)) (app : multirun) :
  Validator.isChained cmd = false -> osStart os i cmd = None ->
  startFrom os i (cmd :: rest) app =
  Result (value (startFrom os (S i) rest app))
    (final (startFrom os (S i) rest app))
    (Start cmd None :: Stderr (StartFailed cmd)
       :: trace (startFrom os (S i) rest app)).
Proof. intros H1 H2. simpl. rewrite H1, H2. reflexivity. Qed.

Lemma startFrom_started (os : OS) (i : nat) (cmd : list rune)
    (rest : list (list rune)) (app : multirun) (pid : Z) :
  Validator.isChained cmd = false -> osStart os i cmd = Some pid ->
  startFrom os i (cmd :: rest) app =
  Result (value (startFrom os (S i) rest (final (register pid cmd app))))
    (final (startFrom os (S i) rest (final (register pid cmd app))))
    (Start cmd (Some pid)
       :: trace (logf (Launched cmd pid) (final (register pid cmd app)))
       ++ trace (startFrom os (S i) rest (final (register pid cmd app)))).
Proof. intros H1 H2. simpl. rewrite H1, H2. reflexivity. Qed.

Lemma Forall_launchEffect_logf (l : line) (app : multirun) :
  Forall launchEffect (trace (logf l app)).
Proof.
  apply Forall_forall. intros e He. apply logf_run in He. subst e. exact I.
Qed.

(** The launch of a batch without chained command. *)
Lemma startFrom_accepted (os : OS) (cmds : list (list rune)) :
  forall i app,
    Forall (fun cmd => Validator.isChained cmd = false) cmds ->
    value (startFrom os i cmds app) = None /\
    startsOf (trace (startFrom os i cmds app)) = attempts os i cmds /\
    Forall launchEffect (trace (startFrom os i cmds app)) /\
    final (startFrom os i cmds app)
    = Multirun (verbose app)
        (objects app ++ map fresh (launched os i cmds))
        (registerAll (launched os i cmds) (length (objects app))
           (subprocesses app)).
Proof.
  induction cmds as [|cmd rest IH]; intros i app Hall.
  - simpl. rewrite app_nil_r. destruct app. repeat apply conj; constructor.
  - inversion Hall as [|? ? Hcmd Hrest]; subst.
    destruct (osStart os i cmd) as [pid|] eqn:Hos.
    + rewrite (startFrom_started _ _ _ _ _ pid Hcmd Hos). cbn [value final
        trace].
      destruct (IH (S i) (final (register pid cmd app)) Hrest)
        as (Hv & Hs & Hl & Hf).
      repeat apply conj.
      * exact Hv.
      * change (Start cmd (Some pid) :: ?t)
          with ([Start cmd (Some pid)] ++ t).
        rewrite !startsOf_app, Hs.
        rewrite (proj1 (proj2 (proj2 (proj2 (logf_run _ _))))).
        simpl. rewrite Hos. reflexivity.
      * constructor; [exact I|]. apply Forall_app. split;
          [apply Forall_launchEffect_logf|exact Hl].
      * rewrite Hf. simpl. rewrite Hos. simpl.
        rewrite <- app_assoc, length_app. simpl.
        replace (length (objects app) + 1)%nat
          with (S (length (objects app))) by lia.
        reflexivity.
    + rewrite (startFrom_failed _ _ _ _ _ Hcmd Hos). cbn [value final trace].
      destruct (IH (S i) app Hrest) as (Hv & Hs & Hl & Hf).
      repeat apply conj.
      * exact Hv.
      * change (Start cmd None :: Stderr (StartFailed cmd) :: ?t)
          with ([Start cmd None; Stderr (StartFailed cmd)] ++ t).
        rewrite startsOf_app, Hs. simpl. rewrite Hos. reflexivity.
      * repeat constructor. exact Hl.
      * rewrite Hf. simpl. rewrite Hos. reflexivity.
Qed.

(** The launch stops at the first chained command: it does what it does
    on the commands in front of it and returns the error. *)
Lemma startFrom_rejected (os : OS) (pre : list (list rune)) (cmd : list rune)
    (post : list (list rune)) :
  forall i app,
    Forall (fun c => Validator.isChained c = false) pre ->
    Validator.isChained cmd = true ->
    startFrom os i (pre ++ cmd :: post) app
    = Result (Some Errorf) (final (startFrom os i pre app))
        (trace (startFrom os i pre app)).
Proof.
  induction pre as [|c rest IH]; intros i app Hall Hcmd.
  - rewrite app_nil_l, startFrom_chained by exact Hcmd. reflexivity.
  - inversion Hall as [|? ? Hc Hrest]; subst.
    rewrite <- app_comm_cons.
    destruct (osStart os i c) as [pid|] eqn:Hos.
    + rewrite !(startFrom_started _ _ _ _ _ pid Hc Hos).
      rewrite IH by assumption. reflexivity.
    + rewrite !(startFrom_failed _ _ _ _ _ Hc Hos).
      rewrite IH by assumption. reflexivity.
Qed.

(** Which failures a launch reports. *)
Lemma startFrom_reports (os : OS) (cmds : list (list rune)) (cmd : list rune) :
  forall i app,
    Forall (fun c => Validator.isChained c = false) cmds ->
    (Stderr (StartFailed cmd) ∈ trace (startFrom os i cmds app) <->
     exists k, cmds !! k = Some cmd /\ osStart os (i + k) cmd = None).
Proof.
  induction cmds as [|c rest IH]; intros i app Hall.
  - simpl. split.
    + intros H. apply elem_of_nil in H. contradiction.
    + intros (k & Hk & _). rewrite lookup_nil in Hk. discriminate Hk.
  - inversion Hall as [|? ? Hc Hrest]; subst.
    assert (Hshift : (exists k, rest !! k = Some cmd /\
                        osStart os (S i + k) cmd = None) ->
                     exists k, (c :: rest) !! k = Some cmd /\
                        osStart os (i + k) cmd = None).
    { intros (k & Hk & Hn). exists (S k). split; [exact Hk|].
      replace (i + S k)%nat with (S i + k)%nat by lia. exact Hn. }
    destruct (osStart os i c) as [pid|] eqn:Hos.
    + rewrite (startFrom_started _ _ _ _ _ pid Hc Hos). cbn [trace].
      rewrite elem_of_cons, elem_of_app, IH by exact Hrest. split.
      * intros [H|[H|H]]; [discriminate H| |auto].
        apply logf_run in H. discriminate H.
      * intros ([|k] & Hk & Hn).
        -- simpl in Hk. injection Hk as ->. rewrite Nat.add_0_r in Hn.
           congruence.
        -- right. right. exists k. split; [exact Hk|].
           replace (S i + k)%nat with (i + S k)%nat by lia. exact Hn.
    + rewrite (startFrom_failed _ _ _ _ _ Hc Hos). cbn [trace].
      rewrite !elem_of_cons, IH by exact Hrest. split.
      * intros [H|[H|H]]; [discriminate H| |auto].
        injection H as ->. exists 0%nat. rewrite Nat.add_0_r. auto.
      * intros ([|k] & Hk & Hn).
        -- simpl in Hk. injection Hk as ->. auto.
        -- right. right. exists k. split; [exact Hk|].
           replace (S i + k)%nat with (i + S k)%nat by lia. exact Hn.
Qed.

(** *** [main] *)

Lemma main_no_commands (os : OS) (v : bool) (events : list event) :
  main os v [] events = Result (Exit 2) (Multirun v [] ∅) [Stderr Usage].
Proof. reflexivity. Qed.

Lemma handleEvents_value (os : OS) (events : list event) (app : multirun) :
  value (handleEvents os events app)
  = match value (eventLoop os events
                   (Z.of_nat (size (subprocesses app))) false app) with
    | Blocked => None
    | Finished =>
        Some (existsb
                (hasErr (final (eventLoop os events
                   (Z.of_nat (size (subprocesses app))) false app)))
                (map_to_list (subprocesses (final (eventLoop os events
                   (Z.of_nat (size (subprocesses app))) false app)))))
    end.
Proof.
  unfold handleEvents, bind, emit, get. cbn [value final].
  destruct (value (eventLoop os events _ false app)); reflexivity.
Qed.

(** [main] on a non-empty batch, in terms of its two phases. *)
Lemma main_phases (os : OS) (v : bool) (commands : list (list rune))
    (events : list event) :
  commands <> [] ->
  main os v commands events =
  let s := startSubprocesses os commands (Multirun v [] ∅) in
  match value s with
  | Some _ => Result (Exit 2) (final s) (trace s ++ [Stderr StartupError])
  | None =>
      if (size (subprocesses (final s)) =? 0)%nat then
        Result (Exit 1) (final s)
          (trace s ++ trace (logf NoneStarted (final s)))
      else
        let h := handleEvents os events (final s) in
        match value h with
        | None => Result Waiting (final h) (trace s ++ trace h)
        | Some true =>
            Result (Exit 1) (final h)
              (trace s ++ trace h ++ [Stderr EndedAbnormally])
        | Some false =>
            Result (Exit 0) (final h)
              (trace s ++ trace h ++ trace (logf AllExitedOk (final h)))
        end
  end.
Proof.
  intros Hne. destruct commands as [|c cs]; [contradiction|].
  unfold main, body. change (length (c :: cs) =? 0)%nat with false.
  cbv beta iota zeta. unfold bind, get, emit, ret. cbn [value final trace].
  destruct (value (startSubprocesses os (c :: cs) (Multirun v [] ∅)));
    cbn [value final trace]; [reflexivity|].
  destruct (size (subprocesses (final (startSubprocesses os (c :: cs)
             (Multirun v [] ∅)))) =? 0)%nat;
    cbn [value final trace]; [rewrite app_nil_r; reflexivity|].
  destruct (value (handleEvents os events _)) as [[|]|];
    cbn [value final trace]; rewrite ?app_nil_r; reflexivity.
Qed.

(** *** The map after the launch *)

Lemma registerAll_nonempty (children : list (Z * list rune)) :
  forall next m, m <> ∅ -> registerAll children next m <> ∅.
Proof.
  induction children as [|c rest IH]; intros next m Hm; [exact Hm|].
  simpl. apply IH, insert_non_empty.
Qed.

(** Every entry of the map was there before or belongs to a child. *)
Lemma registerAll_lookup_inv (children : list (Z * list rune)) :
  forall next m pid proc,
    registerAll children next m !! pid = Some proc ->
    m !! pid = Some proc \/
    exists k child, children !! k = Some child /\ fst child = pid /\
                    proc = (next + k)%nat.
Proof.
  induction children as [|c rest IH]; intros next m pid proc H.
  - left. exact H.
  - simpl in H. apply IH in H as [H|(k & child & Hk & Hpid & ->)].
    + destruct (decide (fst c = pid)) as [Heq|Hneq].
      * subst pid. rewrite lookup_insert_eq in H. injection H as <-.
        right. exists 0%nat, c. rewrite Nat.add_0_r. auto.
      * rewrite lookup_insert_ne in H by exact Hneq. left. exact H.
    + right. exists (S k), child. repeat split; [exact Hk|exact Hpid|lia].
Qed.

Lemma registerAll_lookup_other (children : list (Z * list rune)) :
  forall next m pid,
    pid ∉ children.*1 ->
    registerAll children next m !! pid = m !! pid.
Proof.
  induction children as [|c rest IH]; intros next m pid Hnot; [reflexivity|].
  simpl in *. apply not_elem_of_cons in Hnot as [Hne Hrest].
  rewrite IH by exact Hrest. apply lookup_insert_ne. congruence.
Qed.

(** When the pids are pairwise distinct no entry is overwritten: each
    child is found under its own pid. *)
Lemma registerAll_lookup (children : list (Z * list rune)) :
  forall next m k child,
    NoDup children.*1 -> children !! k = Some child ->
    registerAll children next m !! fst child = Some (next + k)%nat.
Proof.
  induction children as [|c rest IH]; intros next m k child Hnd Hk.
  - rewrite lookup_nil in Hk. discriminate Hk.
  - simpl in Hnd. apply NoDup_cons in Hnd as [Hnot Hnd]. simpl.
    destruct k as [|k].
    + simpl in Hk. injection Hk as ->.
      rewrite registerAll_lookup_other by exact Hnot.
      rewrite lookup_insert_eq, Nat.add_0_r. reflexivity.
    + simpl in Hk. rewrite (IH (S next) _ k child Hnd Hk).
      f_equal. lia.
Qed.

Lemma registerAll_size (children : list (Z * list rune)) :
  forall next m,
    NoDup children.*1 ->
    (forall pid, pid ∈ children.*1 -> m !! pid = None) ->
    size (registerAll children next m) = (size m + length children)%nat.
Proof.
  induction children as [|c rest IH]; intros next m Hnd Hfresh.
  - simpl. lia.
  - simpl in Hnd. apply NoDup_cons in Hnd as [Hnot Hnd]. simpl.
    rewrite IH.
    + rewrite map_size_insert_None; [lia|]. apply Hfresh. simpl. left.
    + exact Hnd.
    + intros pid Hpid. rewrite lookup_insert_ne.
      * apply Hfresh. simpl. right. exact Hpid.
      * intros <-. contradiction.
Qed.

(** Where a launched child comes from. *)
Lemma launched_lookup_inv (os : OS) (cmds : list (list rune)) :
  forall i child,
    child ∈ launched os i cmds ->
    exists k, cmds !! k = Some (snd child) /\
              osStart os (i + k) (snd child) = Some (fst child).
Proof.
  induction cmds as [|cmd rest IH]; intros i child Hin.
  - simpl in Hin. apply elem_of_nil in Hin. contradiction.
  - simpl in Hin.
    assert (Hlater : child ∈ launched os (S i) rest ->
      exists k, (cmd :: rest) !! k = Some (snd child) /\
                osStart os (i + k) (snd child) = Some (fst child)).
    { intros H. apply IH in H as (k & Hk & Hos). exists (S k).
      split; [exact Hk|]. replace (i + S k)%nat with (S i + k)%nat by lia.
      exact Hos. }
    destruct (osStart os i cmd) as [pid|] eqn:Hos; [|auto].
    apply elem_of_cons in Hin as [->|Hin]; [|auto].
    exists 0%nat. rewrite Nat.add_0_r. simpl. auto.
Qed.

Lemma launched_nil_iff (os : OS) (cmds : list (list rune)) :
  forall i,
    launched os i cmds = [] <->
    forall k cmd, cmds !! k = Some cmd -> osStart os (i + k) cmd = None.
Proof.
  induction cmds as [|cmd rest IH]; intros i.
  - split; [|reflexivity]. intros _ k c Hk. rewrite lookup_nil in Hk.
    discriminate Hk.
  - simpl. split.
    + intros H [|k] c Hk.
      * simpl in Hk. injection Hk as ->. rewrite Nat.add_0_r.
        destruct (osStart os i c); [discriminate H|reflexivity].
      * simpl in Hk. destruct (osStart os i cmd); [discriminate H|].
        replace (i + S k)%nat with (S i + k)%nat by lia.
        apply (proj1 (IH (S i)) H k c Hk).
    + intros H. rewrite <- (Nat.add_0_r i) at 1.
      rewrite (H 0%nat cmd eq_refl). apply IH. intros k c Hk.
      replace (S i + k)%nat with (i + S k)%nat by lia. apply H. exact Hk.
Qed.

(** [main] on a batch with a chained command. *)
Lemma main_rejected (os : OS) (v : bool) (pre : list (list rune))
    (cmd : list rune) (post : list (list rune)) (events : list event) :
  Forall (fun c => Validator.isChained c = false) pre ->
  Validator.isChained cmd = true ->
  main os v (pre ++ cmd :: post) events
  = Result (Exit 2) (final (startFrom os 0 pre (Multirun v [] ∅)))
      (trace (startFrom os 0 pre (Multirun v [] ∅)) ++ [Stderr StartupError]).
Proof.
  intros Hpre Hcmd.
  assert (Hne : pre ++ cmd :: post <> []) by (destruct pre; discriminate).
  rewrite (main_phases _ _ _ _ Hne). cbv zeta. unfold startSubprocesses.
  rewrite (startFrom_rejected os pre cmd post 0 _ Hpre Hcmd).
  reflexivity.
Qed.

(** [main] on an accepted batch of which nothing starts. *)
Lemma main_none_started (os : OS) (v : bool) (commands : list (list rune))
    (events : list event) :
  commands <> [] ->
  Forall (fun c => Validator.isChained c = false) commands ->
  launched os 0 commands = [] ->
  value (main os v commands events) = Exit 1 /\
  Forall launchEffect (trace (main os v commands events)).
Proof.
  intros Hne Hall Hnil.
  destruct (startFrom_accepted os commands 0 (Multirun v [] ∅) Hall)
    as (Hv & Hs & Hl & Hf).
  rewrite (main_phases _ _ _ _ Hne). cbv zeta. unfold startSubprocesses.
  rewrite Hv, Hf, Hnil. cbn [subprocesses objects registerAll].
  change (size (∅ : gmap Z nat) =? 0)%nat with true.
  cbn [value trace]. split; [reflexivity|].
  apply Forall_app. split; [exact Hl|apply Forall_launchEffect_logf].
Qed.

(** A batch with a chained command splits at the first one. *)
Lemma first_chained (commands : list (list rune)) :
  Exists (fun c => Validator.isChained c = true) commands ->
  exists pre cmd post,
    commands = pre ++ cmd :: post /\
    Forall (fun c => Validator.isChained c = false) pre /\
    Validator.isChained cmd = true.
Proof.
  induction commands as [|c rest IH]; intros H.
  - apply Exists_nil in H. contradiction.
  - destruct (Validator.isChained c) eqn:Hc.
    + exists [], c, rest. repeat split; [constructor|exact Hc].
    + apply Exists_cons in H as [H|H]; [congruence|].
      destruct (IH H) as (pre & cmd & post & -> & Hpre & Hcmd).
      exists (c :: pre), cmd, post. repeat split; [|exact Hcmd].
      constructor; assumption.
Qed.

(** *** Rejected batches *)

(** C5, as stated, fails.  On the batch of the repository's test with one
    chained command after a plain one, [echo hello] is started (here with
    pid 100) before [sleep 1 && sleep 1] is looked at; the supervisor then
    exits with code 2 and leaves that child running. *)
Lemma earlier_commands_are_spawned :
  Validator.isChained sleepAndSleep = true /\
  value (main obligingOS false [echoHello; sleepAndSleep] []) = Exit 2 /\
  ~ (forall cmd pid,
       Start cmd (Some pid)
         ∉ trace (main obligingOS false [echoHello; sleepAndSleep] [])).
Proof.
  split; [reflexivity|]. split; [reflexivity|].
  intros H. apply (H echoHello 100). vm_compute. left.
Qed.

(** C5, amended: when a batch holds a chained command, the launch stops
    at the first one: the commands in front of it are attempted as usual
    (and whatever they started is left running), no process is spawned
    for the chained command or for any command after it, the rejection is
    reported, the event loop is not entered (no signal registration, no
    broadcast, no signal sent), and the exit code is 2. *)
Theorem chained_command_aborts_launch (os : OS) (v : bool)
    (pre : list (list rune)) (cmd : list rune) (post : list (list rune))
    (events : list event) :
  Forall (fun c => Validator.isChained c = false) pre ->
  Validator.isChained cmd = true ->
  value (main os v (pre ++ cmd :: post) events) = Exit 2 /\
  startsOf (trace (main os v (pre ++ cmd :: post) events))
    = attempts os 0 pre /\
  Stderr StartupError ∈ trace (main os v (pre ++ cmd :: post) events) /\
  Forall launchEffect (trace (main os v (pre ++ cmd :: post) events)).
Proof.
  intros Hpre Hcmd. rewrite (main_rejected _ _ _ _ _ _ Hpre Hcmd).
  cbn [value final trace].
  destruct (startFrom_accepted os pre 0 (Multirun v [] ∅) Hpre)
    as (_ & Hs & Hl & _).
  repeat apply conj.
  - reflexivity.
  - rewrite startsOf_app, Hs. apply app_nil_r.
  - apply elem_of_app. right. left.
  - apply Forall_app. split; [exact Hl|]. repeat constructor.
Qed.

Lemma chained_command_aborts_launch_witness :
  value (main obligingOS false [echoHello; sleepAndSleep; sleep5] [])
    = Exit 2 /\
  startsOf (trace (main obligingOS false
                     [echoHello; sleepAndSleep; sleep5] []))
    = [(echoHello, Some 100)].
Proof.
  assert (Hpre : Forall (fun c => Validator.isChained c = false)
                    [echoHello]) by (repeat constructor).
  pose proof (chained_command_aborts_launch obligingOS false
                [echoHello] sleepAndSleep [sleep5] [] Hpre eq_refl)
    as (H1 & H2 & _).
  split; [exact H1|exact H2].
Defined.

(** *** Failed starts *)

(** C7: in a batch without chained command every command is attempted,
    whether or not earlier ones failed to start; exactly the failed starts
    are reported on standard error; the launch returns no error and
    supervision holds the started children only; and when the batch is
    not empty and nothing could be started, the supervisor exits with
    code 1 without entering the event loop. *)
Theorem failed_start_is_skipped (os : OS) (v : bool)
    (commands : list (list rune)) (events : list event) :
  Forall (fun cmd => Validator.isChained cmd = false) commands ->
  startsOf (trace (startSubprocesses os commands (Multirun v [] ∅)))
    = attempts os 0 commands /\
  (forall cmd,
     Stderr (StartFailed cmd)
       ∈ trace (startSubprocesses os commands (Multirun v [] ∅)) <->
     exists i, commands !! i = Some cmd /\ osStart os i cmd = None) /\
  value (startSubprocesses os commands (Multirun v [] ∅)) = None /\
  objects (final (startSubprocesses os commands (Multirun v [] ∅)))
    = map fresh (launched os 0 commands) /\
  (forall pid proc,
     subprocesses (final (startSubprocesses os commands (Multirun v [] ∅)))
       !! pid = Some proc ->
     exists i cmd, commands !! i = Some cmd /\
                   osStart os i cmd = Some pid) /\
  (commands <> [] ->
   (forall i cmd, commands !! i = Some cmd -> osStart os i cmd = None) ->
   value (main os v commands events) = Exit 1 /\
   Forall launchEffect (trace (main os v commands events))).
Proof.
  intros Hall. unfold startSubprocesses.
  destruct (startFrom_accepted os commands 0 (Multirun v [] ∅) Hall)
    as (Hv & Hs & Hl & Hf).
  repeat apply conj.
  - exact Hs.
  - intros cmd. apply (startFrom_reports os commands cmd 0 _ Hall).
  - exact Hv.
  - rewrite Hf. reflexivity.
  - intros pid proc. rewrite Hf. cbn [subprocesses objects].
    intros H. apply registerAll_lookup_inv in H
      as [H|(k & child & Hk & Hpid & _)].
    + rewrite lookup_empty in H. discriminate H.
    + apply list_elem_of_lookup_2, launched_lookup_inv in Hk
        as (i & Hi & Hos).
      exists i, (snd child). subst pid. auto.
  - intros Hne Hnone. apply main_none_started; [exact Hne|exact Hall|].
    apply launched_nil_iff. exact Hnone.
Qed.

Lemma failed_start_is_skipped_witness :
  value (main barrenOS false [echoHello; sleep5] []) = Exit 1.
Proof.
  assert (Hall : Forall (fun c => Validator.isChained c = false)
                    [echoHello; sleep5]) by (repeat constructor).
  refine (proj1 (proj2 (proj2 (proj2 (proj2 (proj2
    (failed_start_is_skipped barrenOS false [echoHello; sleep5] [] Hall)
    )))) _ _)).
  - discriminate.
  - intros i cmd _. reflexivity.
Defined.

(** *** Runs in which every child reports *)

Lemma settle_no_exits (evs : list event) (objs : list subprocess) :
  exits evs = [] -> settle evs objs = objs.
Proof.
  induction evs as [|[proc e|sig] rest IH]; intros H; simpl in *;
    [reflexivity|discriminate H|exact (IH H)].
Qed.

(** A loop entered with as many running processes as there are completion
    events to come ends, and it has taken all of them. *)
Lemma eventLoop_finishes (os : OS) (events : list event) :
  forall running closing app,
    running = Z.of_nat (length (exits events)) ->
    value (eventLoop os events running closing app) = Finished /\
    settle (consumed running events) (objects app)
    = settle events (objects app).
Proof.
  induction events as [|ev rest IH]; intros running closing app Hrun.
  - simpl in Hrun. subst running. split; reflexivity.
  - destruct (Z_gt_le_dec running 0) as [Hr|Hr].
    + rewrite eventLoop_cons, consumed_cons by exact Hr.
      unfold bind. cbn [value].
      assert (Hafter : after ev running = Z.of_nat (length (exits rest))).
      { destruct ev; simpl in *; lia. }
      destruct (IH (after ev running) (value (select os ev closing app))
                  (final (select os ev closing app)) Hafter) as [Hv Hs].
      split; [exact Hv|].
      rewrite select_final in Hs. cbn [objects] in Hs.
      destruct ev; simpl; simpl in Hs; exact Hs.
    + rewrite eventLoop_stop, consumed_stop by exact Hr.
      split; [reflexivity|]. symmetry. apply settle_no_exits.
      destruct (exits (ev :: rest)); [reflexivity|simpl in Hrun; lia].
Qed.

Lemma settle_lookup_other (evs : list event) :
  forall objs p,
    p ∉ (exits evs).*1 -> settle evs objs !! p = objs !! p.
Proof.
  induction evs as [|[proc e|sig] rest IH]; intros objs p Hnot; simpl in *.
  - reflexivity.
  - apply not_elem_of_cons in Hnot as [Hne Hrest].
    rewrite IH by exact Hrest. apply list_lookup_alter_ne. congruence.
  - apply IH, Hnot.
Qed.

(** When no pointer arrives twice, an entry ends as the classification of
    its own completion event left it. *)
Lemma settle_lookup_exit (evs : list event) :
  forall objs p e,
    NoDup (exits evs).*1 -> (p, e) ∈ exits evs ->
    settle evs objs !! p = classified e <$> objs !! p.
Proof.
  induction evs as [|[proc e'|sig] rest IH]; intros objs p e Hnd Hin;
    simpl in *.
  - apply elem_of_nil in Hin. contradiction.
  - apply NoDup_cons in Hnd as [Hnot Hnd].
    apply elem_of_cons in Hin as [Heq|Hin].
    + injection Heq as -> ->.
      rewrite settle_lookup_other by exact Hnot.
      apply list_lookup_alter_eq.
    + rewrite (IH _ p e Hnd Hin). rewrite list_lookup_alter_ne; [reflexivity|].
      intros ->. apply Hnot. apply list_elem_of_fmap. exists (p, e). auto.
  - apply IH; assumption.
Qed.

(** The verdict of the final scan when the pids are pairwise distinct and
    every launched child sends its completion event once. *)
Lemma hadErrors_iff (children : list (Z * list rune)) (v : bool)
    (evs : list event) :
  NoDup children.*1 ->
  (exits evs).*1 ≡ₚ seq 0 (length children) ->
  existsb
    (hasErr (Multirun v (settle evs (map fresh children))
               (registerAll children 0 ∅)))
    (map_to_list (registerAll children 0 ∅))
  = existsb (fun pe => negb (isNormalExit (snd pe))) (exits evs).
Proof.
  intros Hpids Hperm.
  assert (Hnd : NoDup (exits evs).*1).
  { rewrite Hperm. apply NoDup_seq. }
  apply eq_true_iff_eq. rewrite !existsb_exists. split.
  - intros ([pid p] & _ & Herr). unfold hasErr in Herr. simpl in Herr.
    destruct (decide (p ∈ (exits evs).*1)) as [Hin|Hnot].
    + apply list_elem_of_fmap in Hin as ([p' e] & Hp & Hin). simpl in Hp.
      subst p'. exists (p, e). split; [apply list_elem_of_In, Hin|].
      rewrite (settle_lookup_exit _ _ _ _ Hnd Hin) in Herr. simpl.
      destruct (map fresh children !! p) as [o|]; simpl in Herr;
        [|discriminate Herr].
      destruct (isNormalExit e); [discriminate Herr|reflexivity].
    + rewrite settle_lookup_other in Herr by exact Hnot.
      rewrite list_lookup_fmap in Herr.
      destruct (children !! p); simpl in Herr; discriminate Herr.
  - intros ([p e] & Hin & Hab). simpl in Hab.
    apply list_elem_of_In in Hin.
    assert (Hp : p ∈ seq 0 (length children)).
    { rewrite <- Hperm. apply list_elem_of_fmap. exists (p, e). auto. }
    apply list_elem_of_In, in_seq in Hp as [_ Hp]. simpl in Hp.
    destruct (lookup_lt_is_Some_2 children p Hp) as [child Hchild].
    exists (fst child, p). split.
    + apply list_elem_of_In, elem_of_map_to_list.
      apply (registerAll_lookup children 0 ∅ p child Hpids Hchild).
    + unfold hasErr. simpl.
      rewrite (settle_lookup_exit _ _ _ _ Hnd Hin), list_lookup_fmap, Hchild.
      simpl. destruct (isNormalExit e); [discriminate Hab|reflexivity].
Qed.

(** [main] on an accepted batch of which something starts, in a run where
    every launched child reports. *)
Lemma main_supervised (os : OS) (v : bool) (commands : list (list rune))
    (events : list event) :
  Forall (fun c => Validator.isChained c = false) commands ->
  launched os 0 commands <> [] ->
  NoDup (launched os 0 commands).*1 ->
  (exits events).*1 ≡ₚ seq 0 (length (launched os 0 commands)) ->
  value (main os v commands events)
  = if existsb (fun pe => negb (isNormalExit (snd pe))) (exits events)
    then Exit 1 else Exit 0.
Proof.
  intros Hall Hsome Hpids Hperm.
  assert (Hne : commands <> []).
  { intros ->. apply Hsome. reflexivity. }
  destruct (startFrom_accepted os commands 0 (Multirun v [] ∅) Hall)
    as (Hv & _ & _ & Hf).
  cbn [verbose objects subprocesses app length] in Hf.
  set (children := launched os 0 commands) in *.
  assert (Hsize : size (registerAll children 0 ∅) = length children).
  { rewrite registerAll_size; [rewrite map_size_empty; lia|exact Hpids|].
    intros pid _. apply lookup_empty. }
  assert (Hlen : length (exits events) = length children).
  { rewrite <- (length_fmap fst (exits events)), Hperm. apply length_seq. }
  rewrite (main_phases _ _ _ _ Hne). cbv zeta. unfold startSubprocesses.
  rewrite Hv, Hf. cbn [subprocesses].
  destruct (Nat.eqb_spec (size (registerAll children 0 ∅)) 0) as [H0|_].
  { destruct children; [contradiction|]. rewrite Hsize in H0.
    discriminate H0. }
  rewrite handleEvents_value. cbn [subprocesses].
  destruct (eventLoop_finishes os events
              (Z.of_nat (size (registerAll children 0 ∅))) false
              (Multirun v (map fresh children) (registerAll children 0 ∅)))
    as [Hfin Hsettle].
  { rewrite Hsize, Hlen. reflexivity. }
  cbn [objects] in Hsettle.
  rewrite Hfin, eventLoop_final. cbn [verbose objects subprocesses].
  rewrite Hsettle.
  rewrite (hadErrors_iff children v events Hpids Hperm).
  destruct (existsb _ (exits events)); reflexivity.
Qed.

(** *** The exit code *)

(** C2: the exit code is 2 when no command is given and when some command
    is chained; otherwise it is 1 when nothing could be started; otherwise,
    in a run where the children have pairwise distinct pids and each sends
    its completion event, it is 0 when every child is classified normal
    and 1 when at least one is classified abnormal. *)
Theorem main_exit_code (os : OS) (v : bool) (commands : list (list rune))
    (events : list event) :
  (commands = [] -> value (main os v commands events) = Exit 2) /\
  (Exists (fun c => Validator.isChained c = true) commands ->
   value (main os v commands events) = Exit 2) /\
  (commands <> [] ->
   Forall (fun c => Validator.isChained c = false) commands ->
   launched os 0 commands = [] ->
   value (main os v commands events) = Exit 1) /\
  (Forall (fun c => Validator.isChained c = false) commands ->
   launched os 0 commands <> [] ->
   NoDup (launched os 0 commands).*1 ->
   (exits events).*1 ≡ₚ seq 0 (length (launched os 0 commands)) ->
   (Forall (fun pe => isNormalExit (snd pe) = true) (exits events) ->
    value (main os v commands events) = Exit 0) /\
   (Exists (fun pe => isNormalExit (snd pe) = false) (exits events) ->
    value (main os v commands events) = Exit 1)).
Proof.
  repeat apply conj.
  - intros ->. reflexivity.
  - intros H. apply first_chained in H
      as (pre & cmd & post & -> & Hpre & Hcmd).
    rewrite (main_rejected _ _ _ _ _ _ Hpre Hcmd). reflexivity.
  - intros Hne Hall Hnil. apply main_none_started; assumption.
  - intros Hall Hsome Hpids Hperm.
    rewrite (main_supervised _ _ _ _ Hall Hsome Hpids Hperm). split.
    + intros Hnormal.
      destruct (existsb _ (exits events)) eqn:E; [|reflexivity].
      apply existsb_exists in E as (pe & Hin & Hab).
      apply list_elem_of_In in Hin.
      rewrite (proj1 (Forall_forall _ _) Hnormal pe Hin) in Hab.
      discriminate Hab.
    + intros Habnormal.
      apply Exists_exists in Habnormal as (pe & Hin & Hab).
      assert (E : existsb (fun pe => negb (isNormalExit (snd pe)))
                    (exits events) = true).
      { apply existsb_exists. exists pe. split;
          [apply list_elem_of_In, Hin|]. rewrite Hab. reflexivity. }
      rewrite E. reflexivity.
Qed.

Lemma main_exit_code_witness :
  value (main obligingOS false [sleep5; sleep5]
           [SignalReceived SIGTERM; ChildExit 0 killedByTerm;
            ChildExit 1 killedByTerm]) = Exit 0 /\
  value (main obligingOS false [sleep5; sleep5]
           [ChildExit 1 exitedOne; ChildExit 0 killedByTerm]) = Exit 1.
Proof.
  assert (Hall : Forall (fun c => Validator.isChained c = false)
                   [sleep5; sleep5]) by (repeat constructor).
  assert (Hsome : launched obligingOS 0 [sleep5; sleep5] <> [])
    by discriminate.
  assert (Hpids : NoDup (launched obligingOS 0 [sleep5; sleep5]).*1).
  { apply NoDup_cons_2; [|apply NoDup_singleton].
    intros H. apply list_elem_of_singleton in H. discriminate H. }
  split.
  - pose proof (main_exit_code obligingOS false [sleep5; sleep5]
                  [SignalReceived SIGTERM; ChildExit 0 killedByTerm;
                   ChildExit 1 killedByTerm]) as (_ & _ & _ & H).
    apply (H Hall Hsome Hpids); [reflexivity|repeat constructor].
  - pose proof (main_exit_code obligingOS false [sleep5; sleep5]
                  [ChildExit 1 exitedOne; ChildExit 0 killedByTerm])
      as (_ & _ & _ & H).
    apply (H Hall Hsome Hpids); [apply perm_swap|].
    apply Exists_cons_hd. reflexivity.
Defined.

End SupervisorFacts.

(* ===================================================================== *)
(** * Part III: further properties of the program                         *)
(* ===================================================================== *)

(** ** The validator, continued *)

Module ValidatorMore.
Import Rune Validator Commands ValidatorFacts.

Lemma step_backslash (st : scan) :
  exists st', step st BACKSLASH = Continue st'.
Proof.
  unfold step. destruct (escaped st); [eauto|].
  rewrite Z.eqb_refl. eauto.
Qed.

Lemma scanFrom_app_true (a : list rune) :
  forall st b, scanFrom st a = true -> scanFrom st (a ++ b) = true.
Proof.
  induction a as [|c rest IH]; intros st b H; simpl in *; [discriminate H|].
  destruct (step st c); [reflexivity|]. apply IH, H.
Qed.

(** X1: Once a command is reported as chained, so is every command it is a
    prefix of: what follows the first free operator is never looked at. *)
Theorem isChained_prefix (command rest : list rune) :
  isChained command = true -> isChained (command ++ rest) = true.
Proof. apply scanFrom_app_true. Qed.

Lemma isChained_prefix_witness :
  isChained (sleepAndSleep ++ unterminatedCmd) = true.
Proof. apply (isChained_prefix sleepAndSleep unterminatedCmd). reflexivity. Defined.

(** X2: A command that holds none of the three operators is never reported,
    whatever its quotes and backslashes. *)
Theorem isChained_needs_operator (command : list rune) :
  Forall (fun r => isOperator r = false) command ->
  isChained command = false.
Proof.
  unfold isChained. generalize start.
  induction command as [|c rest IH]; intros st Hall; [reflexivity|].
  apply Forall_cons in Hall as [Hc Hrest]. simpl.
  destruct (step st c) as [|st'] eqn:Hstep; [|apply IH, Hrest].
  apply step_Chained in Hstep as [_ Hop]. congruence.
Qed.

Lemma isChained_needs_operator_witness :
  isChained [DQUOTE; BACKSLASH; SQUOTE; 104; 105] = false.
Proof.
  apply isChained_needs_operator. repeat constructor.
Defined.

(** X3: On a command without quote and without backslash the verdict is
    whether an operator occurs at all. *)
Theorem isChained_plain_command (command : list rune) :
  Forall (fun r => isQuote r = false /\ r <> BACKSLASH) command ->
  isChained command = existsb isOperator command.
Proof.
  unfold isChained.
  induction command as [|c rest IH]; intros Hall; [reflexivity|].
  apply Forall_cons in Hall as [[Hq Hb] Hrest]. simpl.
  unfold step, start. simpl.
  destruct (Z.eqb_spec c BACKSLASH); [contradiction|]. rewrite Hq.
  destruct (isOperator c); [reflexivity|]. apply IH, Hrest.
Qed.

Lemma isChained_plain_command_witness :
  isChained echoHello = false /\ isChained sleepAndSleep = true.
Proof.
  split.
  - rewrite (isChained_plain_command echoHello); [reflexivity|].
    repeat constructor; discriminate.
  - rewrite (isChained_plain_command sleepAndSleep); [reflexivity|].
    repeat constructor; discriminate.
Defined.

Lemma stateBefore_all (command : list rune) :
  stateBefore track command (length command) = fold_left track command start.
Proof. unfold stateBefore. rewrite firstn_all. reflexivity. Qed.

(** Two commands that differ by a part scanned from the same variables to
    the same variables, without returning, get the same verdict. *)
Lemma isChained_splice (pre mid rest : list rune) :
  scanFrom (fold_left track pre start) mid = false ->
  fold_left track mid (fold_left track pre start) = fold_left track pre start ->
  isChained (pre ++ mid ++ rest) = isChained (pre ++ rest).
Proof.
  intros Hmid Hback. unfold isChained.
  destruct (scanFrom start pre) eqn:Hpre.
  - rewrite !scanFrom_app_true by exact Hpre. reflexivity.
  - rewrite !(scanFrom_false_track pre) by exact Hpre.
    rewrite (scanFrom_false_track mid) by exact Hmid.
    rewrite Hback. reflexivity.
Qed.

(** X4: A backslash and the rune it escapes can be deleted from a command
    without changing the verdict, wherever no escape is pending. *)
Theorem isChained_escaped_pair (pre : list rune) (r : rune)
    (rest : list rune) :
  escaped (stateBefore track pre (length pre)) = false ->
  isChained (pre ++ BACKSLASH :: r :: rest) = isChained (pre ++ rest).
Proof.
  rewrite stateBefore_all. intros Hesc.
  change (BACKSLASH :: r :: rest) with ([BACKSLASH; r] ++ rest).
  destruct (fold_left track pre start) as [q e] eqn:Hst. simpl in Hesc.
  subst e. apply isChained_splice; rewrite Hst.
  - reflexivity.
  - reflexivity.
Qed.

Lemma isChained_escaped_pair_witness :
  isChained (ascii "echo a"%string ++ BACKSLASH :: SEMI :: ascii "b"%string)
  = isChained (ascii "echo ab"%string).
Proof.
  apply (isChained_escaped_pair (ascii "echo a"%string) SEMI
           (ascii "b"%string)).
  reflexivity.
Defined.

Lemma scanFrom_quoted_body (q : rune) (body : list rune) :
  q <> NONE ->
  Forall (fun r => r <> q /\ r <> BACKSLASH) body ->
  scanFrom (Scan q false) body = false /\
  fold_left track body (Scan q false) = Scan q false.
Proof.
  intros Hq. induction body as [|c rest IH]; intros Hall;
    [split; reflexivity|].
  apply Forall_cons in Hall as [[Hcq Hcb] Hrest].
  assert (Hstep : step (Scan q false) c = Continue (Scan q false)).
  { unfold step. simpl. destruct (Z.eqb_spec c BACKSLASH); [contradiction|].
    destruct (Z.eqb_spec q NONE); [contradiction|]. simpl.
    destruct (Z.eqb_spec c q); [contradiction|]. reflexivity. }
  simpl. unfold track. rewrite Hstep. apply IH, Hrest.
Qed.

(** X5: A quoted span whose body holds neither its own quote nor a backslash
    can be deleted from a command without changing the verdict, when it
    starts where no quote is open and no escape is pending. *)
Theorem isChained_quoted_span (pre : list rune) (q : rune)
    (body rest : list rune) :
  isQuote q = true ->
  Forall (fun r => r <> q /\ r <> BACKSLASH) body ->
  stateBefore track pre (length pre) = start ->
  isChained (pre ++ q :: body ++ q :: rest) = isChained (pre ++ rest).
Proof.
  rewrite stateBefore_all. intros Hq Hbody Hst.
  assert (Hq0 : q <> NONE /\ q <> BACKSLASH).
  { unfold isQuote, NONE, BACKSLASH, SQUOTE, DQUOTE in *.
    eqb_cases; try discriminate; split; lia. }
  destruct Hq0 as [Hne Hnb].
  assert (Hopen : step start q = Continue (Scan q false)).
  { unfold step, start. simpl. destruct (Z.eqb_spec q BACKSLASH);
      [contradiction|]. rewrite Hq. reflexivity. }
  assert (Hclose : step (Scan q false) q = Continue start).
  { unfold step. simpl. destruct (Z.eqb_spec q BACKSLASH); [contradiction|].
    destruct (Z.eqb_spec q NONE); [contradiction|]. simpl.
    rewrite Z.eqb_refl. reflexivity. }
  destruct (scanFrom_quoted_body q body Hne Hbody) as [Hscan Hfold].
  replace (pre ++ q :: body ++ q :: rest)
    with (pre ++ (q :: body ++ [q]) ++ rest)
    by (simpl; rewrite <- app_assoc; reflexivity).
  apply isChained_splice; rewrite Hst.
  - simpl. rewrite Hopen.
    rewrite (scanFrom_false_track body) by exact Hscan.
    rewrite Hfold. simpl. rewrite Hclose. reflexivity.
  - simpl. rewrite (track_Continue _ _ _ Hopen), fold_left_app, Hfold.
    simpl. apply track_Continue, Hclose.
Qed.

Lemma isChained_quoted_span_witness :
  isChained (ascii "echo "%string ++ SQUOTE :: ascii "a|b"%string
               ++ SQUOTE :: ascii " c"%string)
  = isChained (ascii "echo  c"%string).
Proof.
  apply (isChained_quoted_span (ascii "echo "%string) SQUOTE
           (ascii "a|b"%string) (ascii " c"%string)).
  - reflexivity.
  - repeat constructor; discriminate.
  - reflexivity.
Defined.

(** X6: A backslash that ends the command escapes nothing and is ignored. *)
Theorem isChained_trailing_backslash (command : list rune) :
  isChained (command ++ [BACKSLASH]) = isChained command.
Proof.
  unfold isChained. generalize start.
  induction command as [|c rest IH]; intros st; simpl.
  - destruct (step_backslash st) as [st' ->]. reflexivity.
  - destruct (step st c); [reflexivity|]. apply IH.
Qed.

End ValidatorMore.

(** ** The exit classifier, continued *)

Module ClassifierMore.
Import Syscall Classifier Earlier Readings.

Lemma land_low7_core (ws : Z) :
  Z.land (Z.lor ws 0x80) 0x7F = Z.land ws 0x7F.
Proof.
  rewrite Z.land_lor_distr_l. change (Z.land 0x80 0x7F) with 0.
  apply Z.lor_0_r.
Qed.

Lemma shiftr8_core (ws : Z) :
  Z.shiftr (Z.lor ws 0x80) 8 = Z.shiftr ws 8.
Proof.
  rewrite Z.shiftr_lor. change (Z.shiftr 0x80 8) with 0. apply Z.lor_0_r.
Qed.

(** X7: The core-dump flag of a wait status (bit 7) has no part in the
    classification. *)
Theorem isNormalExit_ignores_core_flag (ws : Z) :
  isNormalExit (Some (ExitError (SysWaitStatus (Z.lor ws 0x80))))
  = isNormalExit (Some (ExitError (SysWaitStatus ws))).
Proof.
  unfold isNormalExit, ExitStatus, Signal, Exited, Signaled, mask, exited,
    stopped, shift.
  rewrite land_low7_core, shiftr8_core. reflexivity.
Qed.

Lemma land_low7_shiftl8 (code : Z) : Z.land (Z.shiftl code 8) 0x7F = 0.
Proof.
  change 0x7F with (Z.ones 7). rewrite Z.land_ones by lia.
  rewrite Z.shiftl_mul_pow2 by lia.
  change (2 ^ 8) with (2 * 2 ^ 7). rewrite Z.mul_assoc.
  apply Z.mod_mul. lia.
Qed.

(** X8: An exit is normal exactly when its code is 0, and a death by signal
    exactly when the signal is SIGINT or SIGTERM, for the codes and
    signals a wait status can hold. *)
Theorem isNormalExit_by_cause (n : Z) :
  (0 <= n < 256 -> isNormalExit (exitedWith n) = (n =? 0)) /\
  (0 < n < 127 ->
   isNormalExit (killedBy n) = (n =? SIGINT) || (n =? SIGTERM)).
Proof.
  unfold exitedWith, killedBy, isNormalExit, ExitStatus, Signal, Exited,
    Signaled, mask, exited, stopped, shift. split; intros Hn.
  - rewrite land_low7_shiftl8. simpl.
    rewrite Z.shiftr_shiftl_l by lia. simpl Z.sub. rewrite Z.shiftl_0_r.
    change 255 with (Z.ones 8). rewrite Z.land_ones by lia.
    rewrite Z.mod_small by lia. reflexivity.
  - assert (Hl : Z.land n 127 = n).
    { change 127 with (Z.ones 7). rewrite Z.land_ones by lia.
      apply Z.mod_small. lia. }
    rewrite !Hl.
    destruct (Z.eqb_spec n 0); [lia|].
    destruct (Z.eqb_spec n 127); [lia|]. reflexivity.
Qed.

Lemma isNormalExit_by_cause_witness :
  isNormalExit (exitedWith 3) = false /\ isNormalExit (killedBy 15) = true.
Proof.
  split.
  - apply (proj1 (isNormalExit_by_cause 3)). lia.
  - apply (proj2 (isNormalExit_by_cause 15)). lia.
Defined.



End ClassifierMore.

(** ** The supervisor, continued *)

Module SupervisorMore.
Import Rune Syscall Classifier Supervisor Observations Readings Commands.
Import SupervisorFacts.
Local Open Scope run_scope.

(** *** What the launch leaves behind *)

Lemma register_launchedState (pid : Z) (cmd : list rune) (app : multirun) :
  launchedState app -> launchedState (final (register pid cmd app)).
Proof.
  intros Hinv pid' proc Hl. simpl in *.
  destruct (decide (pid = pid')) as [->|Hne].
  - rewrite lookup_insert_eq in Hl. injection Hl as <-.
    exists (Subprocess pid' cmd true None).
    rewrite list_lookup_middle by reflexivity. auto.
  - rewrite lookup_insert_ne in Hl by exact Hne.
    destruct (Hinv pid' proc Hl) as (p & Hp & Hrest).
    exists p. split; [apply lookup_app_l_Some, Hp|exact Hrest].
Qed.

Lemma register_counts (pid : Z) (cmd : list rune) (app : multirun) :
  (size (subprocesses app) <= length (objects app))%nat ->
  (size (subprocesses (final (register pid cmd app)))
   <= length (objects (final (register pid cmd app))))%nat /\
  length (objects (final (register pid cmd app)))
  = S (length (objects app)).
Proof.
  intros H. cbn [register final objects subprocesses].
  rewrite length_app, map_size_insert. cbn [length].
  destruct (subprocesses app !! pid); unfold id; split; lia.
Qed.

Lemma startFrom_invariants (os : OS) (cmds : list (list rune)) :
  forall i app,
    launchedState app ->
    (size (subprocesses app) <= length (objects app))%nat ->
    launchedState (final (startFrom os i cmds app)) /\
    (size (subprocesses (final (startFrom os i cmds app)))
     <= length (objects (final (startFrom os i cmds app))))%nat /\
    (length (objects (final (startFrom os i cmds app)))
     <= length (objects app) + length cmds)%nat.
Proof.
  induction cmds as [|cmd rest IH]; intros i app Hinv Hsize.
  - simpl. split; [exact Hinv|]. split; [exact Hsize|lia].
  - destruct (Validator.isChained cmd) eqn:Hc.
    + rewrite startFrom_chained by exact Hc. cbn [final length].
      split; [exact Hinv|]. split; [exact Hsize|lia].
    + destruct (osStart os i cmd) as [pid|] eqn:Hos.
      * rewrite (startFrom_started _ _ _ _ _ pid Hc Hos). cbn [final].
        destruct (register_counts pid cmd app Hsize) as [Hs' Hl'].
        destruct (IH (S i) (final (register pid cmd app))
                    (register_launchedState pid cmd app Hinv) Hs')
          as (H1 & H2 & H3).
        split; [exact H1|]. split; [exact H2|]. rewrite Hl' in H3.
        cbn [length]. lia.
      * rewrite (startFrom_failed _ _ _ _ _ Hc Hos). cbn [final].
        destruct (IH (S i) app Hinv Hsize) as (H1 & H2 & H3).
        split; [exact H1|]. split; [exact H2|]. cbn [length]. lia.
Qed.

(** X10: After the launch of any batch, every entry of the map leads to a
    subprocess that carries the entry's pid and is marked up; the map has
    at most as many entries as there are subprocesses, and there are at
    most as many subprocesses as commands. *)
Theorem launch_invariants (os : OS) (v : bool)
    (commands : list (list rune)) :
  launchedState (final (startSubprocesses os commands (Multirun v [] ∅))) /\
  (size (subprocesses
           (final (startSubprocesses os commands (Multirun v [] ∅))))
   <= length (objects
                (final (startSubprocesses os commands (Multirun v [] ∅)))))
    %nat /\
  (length (objects
             (final (startSubprocesses os commands (Multirun v [] ∅))))
   <= length commands)%nat.
Proof.
  unfold startSubprocesses.
  apply (startFrom_invariants os commands 0 (Multirun v [] ∅)).
  - intros pid proc H. simpl in H. rewrite lookup_empty in H.
    discriminate H.
  - simpl. rewrite map_size_empty. lia.
Qed.

(** *** What the event loop keeps *)

Lemma settle_length (evs : list event) :
  forall objs, length (settle evs objs) = length objs.
Proof.
  induction evs as [|[proc e|sig] rest IH]; intros objs; simpl;
    [reflexivity| |apply IH].
  rewrite IH. apply length_alter.
Qed.

Lemma settle_lookup_inv (evs : list event) :
  forall objs p o',
    settle evs objs !! p = Some o' ->
    exists o, objs !! p = Some o /\ cmdPid o' = cmdPid o /\
              command o' = command o /\ (up o' = true -> o' = o).
Proof.
  induction evs as [|[proc e|sig] rest IH]; intros objs p o' H; simpl in H.
  - exists o'. auto.
  - apply IH in H as (o1 & H1 & Hpid & Hcmd & Hup).
    rewrite list_lookup_alter in H1.
    destruct (decide (proc = p)) as [->|Hne].
    + destruct (objs !! p) as [o|]; [|discriminate H1].
      simpl in H1. injection H1 as <-. exists o. simpl in *.
      repeat split; [exact Hpid|exact Hcmd|].
      intros Hu. rewrite (Hup Hu) in Hu. discriminate Hu.
    + exists o1. auto.
  - apply IH, H.
Qed.

Lemma startsOf_kills (os : OS) (sig : Z) (app : multirun) :
  startsOf (kills os sig app) = [].
Proof.
  unfold kills. induction (map_to_list (subprocesses app)) as [|entry rest IH];
    [reflexivity|].
  simpl. rewrite startsOf_app, IH, app_nil_r.
  unfold signalOne. destruct (isUp app (snd entry)); [|reflexivity].
  destruct (osKill os (- fst entry) sig) as [errno|]; [|reflexivity].
  destruct (errno =? ESRCH); reflexivity.
Qed.

Lemma startsOf_logf (l : line) (app : multirun) :
  startsOf (trace (logf l app)) = [].
Proof. apply logf_run. Qed.

Lemma startsOf_select (os : OS) (ev : event) (closing : bool)
    (app : multirun) :
  startsOf (trace (select os ev closing app)) = [].
Proof.
  destruct ev; unfold select; [rewrite onExit_run|rewrite onSignal_run];
    cbn [trace]; destruct closing;
    rewrite ?startsOf_app, ?startsOf_logf; try reflexivity.
  - change (CallShutdown SIGTERM :: ?t) with ([CallShutdown SIGTERM] ++ t).
    rewrite startsOf_app, startsOf_kills. reflexivity.
  - change (CallShutdown sig :: ?t) with ([CallShutdown sig] ++ t).
    rewrite startsOf_app, startsOf_kills. reflexivity.
Qed.

Lemma startsOf_eventLoop (os : OS) (events : list event) :
  forall running closing app,
    startsOf (trace (eventLoop os events running closing app)) = [].
Proof.
  induction events as [|ev rest IH]; intros running closing app.
  - rewrite eventLoop_nil. reflexivity.
  - destruct (Z_gt_le_dec running 0) as [Hr|Hr].
    + rewrite eventLoop_cons by exact Hr. unfold bind. cbn [trace].
      rewrite startsOf_app, startsOf_select, IH. reflexivity.
    + rewrite eventLoop_stop by exact Hr. reflexivity.
Qed.

Lemma handleEvents_final (os : OS) (events : list event) (app : multirun) :
  final (handleEvents os events app)
  = final (eventLoop os events (Z.of_nat (size (subprocesses app)))
             false app).
Proof.
  unfold handleEvents, bind, emit, get. cbn [value final].
  destruct (value (eventLoop os events _ false app)); reflexivity.
Qed.

(** X11: [handleEvents] starts no process and leaves the map and the number of
    subprocesses as they are; each subprocess keeps its pid and command,
    none is ever marked up again, and one that is still marked up is
    untouched. *)
Theorem handleEvents_keeps_entries (os : OS) (events : list event)
    (app : multirun) :
  subprocesses (final (handleEvents os events app)) = subprocesses app /\
  verbose (final (handleEvents os events app)) = verbose app /\
  length (objects (final (handleEvents os events app)))
    = length (objects app) /\
  (forall proc p',
     objects (final (handleEvents os events app)) !! proc = Some p' ->
     exists p, objects app !! proc = Some p /\ cmdPid p' = cmdPid p /\
               command p' = command p /\ (up p' = true -> p' = p)) /\
  startsOf (trace (handleEvents os events app)) = [].
Proof.
  rewrite handleEvents_final, eventLoop_final. cbn [subprocesses verbose
    objects]. repeat apply conj; try reflexivity.
  - apply settle_length.
  - apply settle_lookup_inv.
  - rewrite handleEvents_run.
    change (Notify :: ?t) with ([Notify] ++ t).
    rewrite startsOf_app, startsOf_eventLoop. reflexivity.
Qed.

(** *** Who gets the signal *)

(** X12: The child whose completion event is handled is marked down before
    any broadcast: no signal goes to its process group while the event is
    handled, whether or not the event triggers the broadcast. *)
Theorem exited_child_not_signalled (os : OS) (app : multirun) (pid : Z)
    (proc : nat) (waitErr : option error) (closing : bool) :
  subprocesses app !! pid = Some proc ->
  is_Some (objects app !! proc) ->
  isUp (final (select os (ChildExit proc waitErr) closing app)) proc
    = false /\
  forall sig errno,
    Kill (- pid) sig errno
      ∉ trace (select os (ChildExit proc waitErr) closing app).
Proof.
  intros Hpid [p Hp]. unfold select. rewrite onExit_run. cbn [final trace].
  assert (Hdown : isUp (marked app proc waitErr) proc = false).
  { unfold isUp, marked. cbn [objects].
    rewrite list_lookup_alter_eq, Hp. reflexivity. }
  split; [exact Hdown|].
  intros sig errno Hin.
  apply elem_of_app in Hin as [Hin|Hin].
  { apply logf_run in Hin. discriminate Hin. }
  destruct closing; [apply elem_of_nil in Hin; contradiction|].
  apply elem_of_app in Hin as [Hin|Hin].
  { apply logf_run in Hin. discriminate Hin. }
  apply elem_of_cons in Hin as [Hin|Hin]; [discriminate Hin|].
  apply Kill_in_kills in Hin as (pid' & proc' & Hl & Hup & Heq & _).
  assert (pid' = pid) by lia. subst pid'.
  cbn [marked subprocesses] in Hl. rewrite Hpid in Hl. injection Hl as <-.
  congruence.
Qed.

Lemma exited_child_not_signalled_witness :
  Kill (- 100) SIGTERM None
    ∉ trace (select obligingOS (ChildExit 0 exitedOne) false twoSleepers).
Proof.
  apply (exited_child_not_signalled obligingOS twoSleepers 100 0).
  - reflexivity.
  - eexists. reflexivity.
Defined.

Lemma killTargets_app (a b : list effect) :
  killTargets (a ++ b) = killTargets a ++ killTargets b.
Proof. apply omap_app. Qed.

Lemma killTargets_signalOne (os : OS) (app : multirun) (sig : Z)
    (entry : Z * nat) :
  killTargets (signalOne os app sig entry)
  = if isUp app (snd entry) then [- fst entry] else [].
Proof.
  unfold signalOne. destruct (isUp app (snd entry)); [|reflexivity].
  destruct (osKill os (- fst entry) sig) as [errno|]; [|reflexivity].
  destruct (errno =? ESRCH); reflexivity.
Qed.

Lemma killTargets_entries (os : OS) (app : multirun) (sig : Z)
    (entries : list (Z * nat)) :
  NoDup entries.*1 ->
  NoDup (killTargets (flat_map (signalOne os app sig) entries)) /\
  forall t, t ∈ killTargets (flat_map (signalOne os app sig) entries) ->
            - t ∈ entries.*1.
Proof.
  induction entries as [|entry rest IH]; intros Hnd.
  - split; [constructor|]. intros t Ht. apply elem_of_nil in Ht.
    contradiction.
  - simpl in Hnd. apply NoDup_cons in Hnd as [Hnot Hnd].
    destruct (IH Hnd) as [IH1 IH2]. simpl.
    rewrite killTargets_app, killTargets_signalOne.
    destruct (isUp app (snd entry)); simpl.
    + split.
      * constructor; [|exact IH1]. intros Hin. apply IH2 in Hin.
        rewrite Z.opp_involutive in Hin. contradiction.
      * intros t Ht. apply elem_of_cons in Ht as [->|Ht].
        -- rewrite Z.opp_involutive. left.
        -- right. apply IH2, Ht.
    + split; [exact IH1|]. intros t Ht. right. apply IH2, Ht.
Qed.

(** X13: One call of [shutdown] sends at most one signal to a process group,
    and only to groups of pids that are keys of the map. *)
Theorem shutdown_signals_each_group_once (os : OS) (sig : Z)
    (app : multirun) :
  NoDup (killTargets (trace (shutdown os sig app))) /\
  forall target,
    target ∈ killTargets (trace (shutdown os sig app)) ->
    is_Some (subprocesses app !! (- target)).
Proof.
  rewrite shutdown_run. cbn [trace].
  change (CallShutdown sig :: ?t) with ([CallShutdown sig] ++ t).
  rewrite killTargets_app. simpl.
  destruct (killTargets_entries os app sig (map_to_list (subprocesses app))
              (NoDup_fst_map_to_list _)) as [H1 H2].
  split; [exact H1|].
  intros target Ht. apply H2 in Ht.
  apply list_elem_of_fmap in Ht as ([pid proc] & Heq & Hin). simpl in Heq.
  apply elem_of_map_to_list in Hin. rewrite Heq. eauto.
Qed.

(** *** When the loop ends *)

Lemma eventLoop_value (os : OS) (events : list event) :
  forall running closing app,
    0 <= running ->
    value (eventLoop os events running closing app)
    = if Z.of_nat (length (exits events)) <? running then Blocked
      else Finished.
Proof.
  induction events as [|ev rest IH]; intros running closing app Hrun.
  - rewrite eventLoop_nil. cbn [value exits length].
    change (Z.of_nat 0) with 0.
    destruct (Z.gtb_spec running 0), (Z.ltb_spec 0 running);
      try lia; reflexivity.
  - destruct (Z_gt_le_dec running 0) as [Hr|Hr].
    + rewrite eventLoop_cons by exact Hr. unfold bind. cbn [value].
      rewrite IH by (destruct ev; simpl; lia).
      destruct ev as [proc e|sig]; simpl exits; simpl after; cbn [length].
      * destruct (Z.ltb_spec (Z.of_nat (length (exits rest))) (running - 1)),
          (Z.ltb_spec (Z.of_nat (S (length (exits rest)))) running);
          try lia; reflexivity.
      * reflexivity.
    + rewrite eventLoop_stop by exact Hr. cbn [value].
      destruct (Z.ltb_spec (Z.of_nat (length (exits (ev :: rest)))) running);
        [lia|reflexivity].
Qed.

(** X14: [handleEvents] returns if and only if at least as many completion
    events arrive as the map has entries; signals alone never end it, and
    with fewer completion events it waits for ever. *)
Theorem handleEvents_returns_iff (os : OS) (events : list event)
    (app : multirun) :
  is_Some (value (handleEvents os events app)) <->
  (size (subprocesses app) <= length (exits events))%nat.
Proof.
  rewrite handleEvents_value, eventLoop_value by lia.
  destruct (Z.ltb_spec (Z.of_nat (length (exits events)))
              (Z.of_nat (size (subprocesses app)))) as [Hlt|Hge].
  - split; [intros [x Hx]; discriminate Hx|lia].
  - split; [lia|eauto].
Qed.

(** *** The state [main] exits with *)

Lemma main_supervised_final (os : OS) (v : bool)
    (commands : list (list rune)) (events : list event) :
  Forall (fun c => Validator.isChained c = false) commands ->
  launched os 0 commands <> [] ->
  NoDup (launched os 0 commands).*1 ->
  (exits events).*1 ≡ₚ seq 0 (length (launched os 0 commands)) ->
  final (main os v commands events)
  = Multirun v (settle events (map fresh (launched os 0 commands)))
      (registerAll (launched os 0 commands) 0 ∅).
Proof.
  intros Hall Hsome Hpids Hperm.
  assert (Hne : commands <> []).
  { intros ->. apply Hsome. reflexivity. }
  destruct (startFrom_accepted os commands 0 (Multirun v [] ∅) Hall)
    as (Hv & _ & _ & Hf).
  cbn [verbose objects subprocesses app length] in Hf.
  set (children := launched os 0 commands) in *.
  assert (Hsize : size (registerAll children 0 ∅) = length children).
  { rewrite registerAll_size; [rewrite map_size_empty; lia|exact Hpids|].
    intros pid _. apply lookup_empty. }
  assert (Hlen : length (exits events) = length children).
  { rewrite <- (length_fmap fst (exits events)), Hperm. apply length_seq. }
  rewrite (main_phases _ _ _ _ Hne). cbv zeta. unfold startSubprocesses.
  rewrite Hv, Hf. cbn [subprocesses].
  destruct (Nat.eqb_spec (size (registerAll children 0 ∅)) 0) as [H0|_].
  { destruct children; [contradiction|]. rewrite Hsize in H0.
    discriminate H0. }
  destruct (eventLoop_finishes os events
              (Z.of_nat (size (registerAll children 0 ∅))) false
              (Multirun v (map fresh children) (registerAll children 0 ∅)))
    as [_ Hsettle].
  { rewrite Hsize, Hlen. reflexivity. }
  cbn [objects] in Hsettle.
  assert (Hfinal : final (handleEvents os events
             (Multirun v (map fresh children) (registerAll children 0 ∅)))
           = Multirun v (settle events (map fresh children))
               (registerAll children 0 ∅)).
  { rewrite handleEvents_final, eventLoop_final.
    cbn [verbose objects subprocesses]. rewrite Hsettle. reflexivity. }
  destruct (value (handleEvents os events _)) as [[|]|]; cbn [final];
    exact Hfinal.
Qed.

(** X15: In a run where the launched pids are pairwise distinct and every
    launched child sends its completion event, [main] exits with every
    subprocess marked down, and each one records the classification of
    its own exit: no error for a normal exit, an error otherwise. *)
Theorem main_exits_with_all_down (os : OS) (v : bool)
    (commands : list (list rune)) (events : list event) :
  Forall (fun c => Validator.isChained c = false) commands ->
  launched os 0 commands <> [] ->
  NoDup (launched os 0 commands).*1 ->
  (exits events).*1 ≡ₚ seq 0 (length (launched os 0 commands)) ->
  Forall (fun p => up p = false)
    (objects (final (main os v commands events))) /\
  forall proc waitErr,
    (proc, waitErr) ∈ exits events ->
    exists child,
      launched os 0 commands !! proc = Some child /\
      objects (final (main os v commands events)) !! proc
      = Some (Subprocess (fst child) (snd child) false
                (if isNormalExit waitErr then None else Some Errorf)).
Proof.
  intros Hall Hsome Hpids Hperm.
  rewrite (main_supervised_final _ _ _ _ Hall Hsome Hpids Hperm).
  cbn [objects].
  assert (Hnd : NoDup (exits events).*1).
  { rewrite Hperm. apply NoDup_seq. }
  assert (Hexit : forall proc waitErr,
    (proc, waitErr) ∈ exits events ->
    exists child,
      launched os 0 commands !! proc = Some child /\
      settle events (map fresh (launched os 0 commands)) !! proc
      = Some (Subprocess (fst child) (snd child) false
                (if isNormalExit waitErr then None else Some Errorf))).
  { intros proc waitErr Hin.
    assert (Hp : proc ∈ seq 0 (length (launched os 0 commands))).
    { rewrite <- Hperm. apply list_elem_of_fmap. exists (proc, waitErr).
      auto. }
    apply list_elem_of_In, in_seq in Hp as [_ Hp]. simpl in Hp.
    destruct (lookup_lt_is_Some_2 _ proc Hp) as [child Hchild].
    exists child. split; [exact Hchild|].
    rewrite (settle_lookup_exit _ _ _ _ Hnd Hin), list_lookup_fmap, Hchild.
    reflexivity. }
  split; [|exact Hexit].
  apply Forall_lookup. intros proc p Hp.
  assert (Hlt : (proc < length (launched os 0 commands))%nat).
  { apply lookup_lt_Some in Hp.
    rewrite settle_length, length_map in Hp. exact Hp. }
  assert (Hin : proc ∈ (exits events).*1).
  { rewrite Hperm. apply list_elem_of_In, in_seq. lia. }
  apply list_elem_of_fmap in Hin as ([proc' waitErr] & Heq & Hin).
  simpl in Heq. subst proc'.
  destruct (Hexit proc waitErr Hin) as (child & _ & Hobj).
  rewrite Hobj in Hp. injection Hp as <-. reflexivity.
Qed.

Lemma main_exits_with_all_down_witness :
  Forall (fun p => up p = false)
    (objects (final (main obligingOS false [sleep5; sleep5]
                       [ChildExit 1 exitedOne; ChildExit 0 killedByTerm]))).
Proof.
  assert (Hall : Forall (fun c => Validator.isChained c = false)
                   [sleep5; sleep5]) by (repeat constructor).
  assert (Hsome : launched obligingOS 0 [sleep5; sleep5] <> [])
    by discriminate.
  assert (Hpids : NoDup (launched obligingOS 0 [sleep5; sleep5]).*1).
  { apply NoDup_cons_2; [|apply NoDup_singleton].
    intros H. apply list_elem_of_singleton in H. discriminate H. }
  apply (main_exits_with_all_down obligingOS false [sleep5; sleep5]
           [ChildExit 1 exitedOne; ChildExit 0 killedByTerm]
           Hall Hsome Hpids).
  apply perm_swap.
Defined.

(** *** Exit codes *)

Lemma accepted_or_chained (commands : list (list rune)) :
  Forall (fun c => Validator.isChained c = false) commands \/
  Exists (fun c => Validator.isChained c = true) commands.
Proof.
  induction commands as [|c rest [IH|IH]].
  - left. constructor.
  - destruct (Validator.isChained c) eqn:Hc.
    + right. apply Exists_cons_hd, Hc.
    + left. constructor; assumption.
  - right. apply Exists_cons_tl, IH.
Qed.

Lemma registerAll_size_le (children : list (Z * list rune)) :
  forall next m,
    (size (registerAll children next m) <= size m + length children)%nat.
Proof.
  induction children as [|c rest IH]; intros next m; simpl; [lia|].
  specialize (IH (S next) (<[fst c := next]> m)).
  rewrite map_size_insert in IH.
  destruct (m !! fst c); unfold id in IH; lia.
Qed.

(** What [main] returns on an accepted, non-empty batch. *)
Lemma main_accepted (os : OS) (v : bool) (commands : list (list rune))
    (events : list event) :
  commands <> [] ->
  Forall (fun c => Validator.isChained c = false) commands ->
  (launched os 0 commands = [] /\
   value (main os v commands events) = Exit 1) \/
  (launched os 0 commands <> [] /\
   Notify ∈ trace (main os v commands events) /\
   ((value (main os v commands events) = Waiting /\
     (length (exits events) < length (launched os 0 commands))%nat) \/
    (value (main os v commands events) = Exit 1 /\
     Stderr EndedAbnormally ∈ trace (main os v commands events) /\
     exits events <> []) \/
    (value (main os v commands events) = Exit 0 /\ exits events <> []))).
Proof.
  intros Hne Hall.
  destruct (startFrom_accepted os commands 0 (Multirun v [] ∅) Hall)
    as (Hv & _ & _ & Hf).
  cbn [verbose objects subprocesses app length] in Hf.
  rewrite (main_phases _ _ _ _ Hne). cbv zeta. unfold startSubprocesses.
  rewrite Hv, Hf. cbn [subprocesses].
  set (children := launched os 0 commands) in *.
  set (app0 := Multirun v (map fresh children) (registerAll children 0 ∅)).
  destruct (Nat.eqb_spec (size (registerAll children 0 ∅)) 0) as [H0|H0].
  { left. split; [|reflexivity].
    apply map_size_empty_iff in H0.
    destruct children as [|c rest]; [reflexivity|]. exfalso. revert H0.
    simpl. apply registerAll_nonempty, insert_non_empty. }
  right.
  assert (Hsome : children <> []).
  { intros E. apply H0. rewrite E. reflexivity. }
  split; [exact Hsome|].
  assert (Hret : is_Some (value (handleEvents os events app0)) <->
                 (size (subprocesses app0) <= length (exits events))%nat).
  { rewrite handleEvents_value, eventLoop_value by lia.
    destruct (Z.ltb_spec (Z.of_nat (length (exits events)))
                (Z.of_nat (size (subprocesses app0)))) as [Hlt|Hge].
    - split; [intros [x Hx]; discriminate Hx|lia].
    - split; [lia|eauto]. }
  pose proof (handleEvents_run os events app0) as Hrun.
  pose proof (registerAll_size_le children 0 ∅) as Hle.
  rewrite map_size_empty in Hle. cbn [subprocesses app0] in Hret.
  assert (Hexits : is_Some (value (handleEvents os events app0)) ->
                   exits events <> []).
  { intros Hs E. apply Hret in Hs. rewrite E in Hs. simpl in Hs. lia. }
  destruct (value (handleEvents os events app0)) as [[|]|] eqn:Hh;
    cbn [value trace].
  - split.
    + apply elem_of_app. right. apply elem_of_app. left. rewrite Hrun. left.
    + right. left. split; [reflexivity|]. split; [|eauto].
      apply elem_of_app. right. apply elem_of_app. right. left.
  - split.
    + apply elem_of_app. right. apply elem_of_app. left. rewrite Hrun. left.
    + right. right. split; [reflexivity|eauto].
  - split.
    + apply elem_of_app. right. rewrite Hrun. left.
    + left. split; [reflexivity|].
      destruct (le_lt_dec (size (registerAll children 0 ∅))
                  (length (exits events))) as [Hge|Hlt]; [|lia].
      apply Hret in Hge. destruct Hge as [x Hx]. discriminate Hx.
Qed.

(** From [commands := flag.Args()] on, [main] exits with code 2 in two
    cases only: no command was given, or one of the commands is chained. *)
Lemma main_exits_2_iff (os : OS) (v : bool) (commands : list (list rune))
    (events : list event) :
  value (main os v commands events) = Exit 2 <->
  commands = [] \/ Exists (fun c => Validator.isChained c = true) commands.
Proof.
  split.
  - intros H2. destruct commands as [|c rest] eqn:E; [left; reflexivity|].
    rewrite <- E in *.
    destruct (accepted_or_chained commands) as [Hall|Hex]; [|right; exact Hex].
    assert (Hne : commands <> []) by (rewrite E; discriminate).
    destruct (main_accepted os v commands events Hne Hall)
      as [[_ H]|(_ & _ & [[H _]|[[H _]|[H _]]])];
      rewrite H in H2; discriminate H2.
  - intros [->|Hex]; [reflexivity|].
    apply first_chained in Hex as (pre & cmd & post & -> & Hpre & Hcmd).
    rewrite (main_rejected _ _ _ _ _ _ Hpre Hcmd). reflexivity.
Qed.

(** X17: When at least as many completion events arrive as commands could be
    started, [main] does exit, and with code 0, 1 or 2. *)
Theorem main_exits (os : OS) (v : bool) (commands : list (list rune))
    (events : list event) :
  (length (launched os 0 commands) <= length (exits events))%nat ->
  value (main os v commands events) = Exit 0 \/
  value (main os v commands events) = Exit 1 \/
  value (main os v commands events) = Exit 2.
Proof.
  intros Hlen.
  destruct commands as [|c rest] eqn:E; [right; right; reflexivity|].
  rewrite <- E in *.
  assert (Hne : commands <> []) by (rewrite E; discriminate).
  destruct (accepted_or_chained commands) as [Hall|Hex].
  - destruct (main_accepted os v commands events Hne Hall)
      as [[_ H]|(_ & _ & [[H Hlt]|[[H _]|[H _]]])]; auto. lia.
  - right. right.
    apply first_chained in Hex as (pre & cmd & post & Heq & Hpre & Hcmd).
    rewrite Heq, (main_rejected _ _ _ _ _ _ Hpre Hcmd). reflexivity.
Qed.

Lemma main_exits_witness :
  value (main obligingOS true [sleep5] [ChildExit 0 killedByTerm]) = Exit 0 \/
  value (main obligingOS true [sleep5] [ChildExit 0 killedByTerm]) = Exit 1 \/
  value (main obligingOS true [sleep5] [ChildExit 0 killedByTerm]) = Exit 2.
Proof.
  apply (main_exits obligingOS true [sleep5] [ChildExit 0 killedByTerm]).
  simpl. lia.
Defined.

(** From [commands := flag.Args()] on, [main] exits with code 0 only after
    supervision. *)
Lemma main_exits_0_only_after_supervision (os : OS) (v : bool)
    (commands : list (list rune)) (events : list event) :
  value (main os v commands events) = Exit 0 ->
  commands <> [] /\
  Forall (fun c => Validator.isChained c = false) commands /\
  launched os 0 commands <> [] /\
  Notify ∈ trace (main os v commands events) /\
  exits events <> [].
Proof.
  intros H0.
  destruct commands as [|c rest] eqn:E; [discriminate H0|].
  rewrite <- E in *.
  assert (Hne : commands <> []) by (rewrite E; discriminate).
  destruct (accepted_or_chained commands) as [Hall|Hex].
  - destruct (main_accepted os v commands events Hne Hall)
      as [[_ H]|(Hsome & Hnotify & [[H _]|[[H _]|[H Hex]]])];
      rewrite H in H0; try discriminate H0. auto.
  - apply first_chained in Hex as (pre & cmd & post & Heq & Hpre & Hcmd).
    rewrite Heq, (main_rejected _ _ _ _ _ _ Hpre Hcmd) in H0.
    discriminate H0.
Qed.

(** X19: Every exit of [main] with a code other than 0 comes with at least one
    line on standard error. *)
Theorem nonzero_exit_is_reported (os : OS) (v : bool)
    (commands : list (list rune)) (events : list event) (code : Z) :
  value (main os v commands events) = Exit code ->
  code <> 0 ->
  exists l, Stderr l ∈ trace (main os v commands events).
Proof.
  intros Hval Hcode.
  destruct commands as [|c rest] eqn:E.
  { exists Usage. rewrite main_no_commands. left. }
  rewrite <- E in *.
  assert (Hne : commands <> []) by (rewrite E; discriminate).
  destruct (accepted_or_chained commands) as [Hall|Hex].
  - destruct (main_accepted os v commands events Hne Hall)
      as [[Hnil _]|(_ & _ & [[H _]|[[_ [H _]]|[H _]]])].
    + exists (StartFailed c).
      assert (Hin : Stderr (StartFailed c)
                ∈ trace (startSubprocesses os commands (Multirun v [] ∅))).
      { apply (startFrom_reports os commands c 0 _ Hall). exists 0%nat.
        split; [rewrite E; reflexivity|].
        apply (proj1 (launched_nil_iff os commands 0) Hnil 0%nat c).
        rewrite E. reflexivity. }
      rewrite (main_phases _ _ _ _ Hne). cbv zeta.
      destruct (value (startSubprocesses os commands _)).
      * apply elem_of_app. left. exact Hin.
      * destruct (size _ =? 0)%nat.
        -- apply elem_of_app. left. exact Hin.
        -- destruct (value (handleEvents os events _)) as [[|]|];
             apply elem_of_app; left; exact Hin.
    + rewrite H in Hval. discriminate Hval.
    + exists EndedAbnormally. exact H.
    + rewrite H in Hval. injection Hval as <-. contradiction.
  - exists StartupError.
    apply first_chained in Hex as (pre & cmd & post & Heq & Hpre & Hcmd).
    rewrite Heq, (main_rejected _ _ _ _ _ _ Hpre Hcmd). cbn [trace].
    apply elem_of_app. right. left.
Qed.

Lemma nonzero_exit_is_reported_witness :
  exists l, Stderr l ∈ trace (main barrenOS false [echoHello; sleep5] []).
Proof.
  apply (nonzero_exit_is_reported barrenOS false [echoHello; sleep5] [] 1).
  - reflexivity.
  - discriminate.
Defined.

(** *** The [verbose] flag *)

Lemma silent_app (a b : list effect) : silent (a ++ b) = silent a ++ silent b.
Proof. apply omap_app. Qed.

Lemma silent_no_stdout (t : list effect) (l : line) : Stdout l ∉ silent t.
Proof.
  intros H. apply list_elem_of_omap in H as (e & _ & He).
  destruct e; discriminate He.
Qed.

Lemma silent_kills (os : OS) (sig : Z) (app : multirun) :
  silent (kills os sig app) = kills os sig app.
Proof.
  unfold kills.
  induction (map_to_list (subprocesses app)) as [|entry rest IH];
    [reflexivity|].
  simpl. rewrite silent_app, IH. f_equal.
  unfold signalOne. destruct (isUp app (snd entry)); [|reflexivity].
  destruct (osKill os (- fst entry) sig) as [errno|]; [|reflexivity].
  destruct (errno =? ESRCH); reflexivity.
Qed.

Lemma oblivious_ret {A} (a : A) : Oblivious (ret a).
Proof. intros app. repeat split. Qed.

Lemma oblivious_bind {A B} (m : Run A) (k : A -> Run B) :
  Oblivious m -> (forall a, Oblivious (k a)) -> Oblivious (bind m k).
Proof.
  intros Hm Hk app. destruct (Hm app) as (Hv & Hf & Ht).
  unfold bind. cbn [value final trace]. rewrite Hv, Hf, Ht.
  destruct (Hk (value (m app)) (final (m app))) as (Hv' & Hf' & Ht').
  rewrite Hv', Hf', Ht', silent_app. repeat split.
Qed.

Lemma oblivious_emit (e : effect) :
  (forall l, e <> Stdout l) -> Oblivious (emit e).
Proof.
  intros He app. unfold emit. cbn [value final trace]. repeat split.
  destruct e; try reflexivity. exfalso. eapply He. reflexivity.
Qed.

Lemma oblivious_logf (l : line) : Oblivious (logf l).
Proof.
  intros app. unfold logf. cbn [value final trace verbose quiet].
  repeat split. destruct (verbose app); reflexivity.
Qed.

Lemma oblivious_register (pid : Z) (cmd : list rune) :
  Oblivious (register pid cmd).
Proof. intros app. repeat split. Qed.

Lemma oblivious_store (proc : nat) (f : subprocess -> subprocess) :
  Oblivious (store proc f).
Proof. intros app. repeat split. Qed.

Lemma oblivious_get {A} (k : multirun -> Run A) :
  (forall app, k (quiet app) = k app) ->
  (forall a, Oblivious (k a)) ->
  Oblivious (bind get k).
Proof.
  intros Hq Hk app. unfold bind, get. cbn [value final trace].
  rewrite Hq. destruct (Hk app app) as (Hv & Hf & Ht).
  rewrite Hv, Hf, Ht. repeat split.
Qed.

Lemma oblivious_shutdown (os : OS) (sig : Z) : Oblivious (shutdown os sig).
Proof.
  intros app. rewrite !shutdown_run. cbn [value final trace].
  repeat split.
  change (silent (CallShutdown sig :: ?t)) with (CallShutdown sig :: silent t).
  f_equal. symmetry. apply silent_kills.
Qed.

Ltac oblivious :=
  repeat first
    [ apply oblivious_shutdown
    | apply oblivious_ret
    | apply oblivious_logf
    | apply oblivious_store
    | apply oblivious_register
    | apply oblivious_emit; intros ?; discriminate
    | apply oblivious_bind; [|intros ?] ].

Lemma oblivious_select (os : OS) (ev : event) (closing : bool) :
  Oblivious (select os ev closing).
Proof.
  destruct ev as [proc waitErr|sig]; unfold select, onExit, onSignal;
    destruct closing; simpl negb; cbv iota;
    try destruct (negb (isNormalExit waitErr)); oblivious.
Qed.

Lemma oblivious_eventLoop (os : OS) (events : list event) :
  forall running closing, Oblivious (eventLoop os events running closing).
Proof.
  induction events as [|ev rest IH]; intros running closing; simpl;
    destruct (running >? 0); try apply oblivious_ret.
  apply oblivious_bind; [apply oblivious_select|]. intros closing'. apply IH.
Qed.

Lemma oblivious_startFrom (os : OS) (commands : list (list rune)) :
  forall i, Oblivious (startFrom os i commands).
Proof.
  induction commands as [|cmd rest IH]; intros i; simpl;
    [apply oblivious_ret|].
  destruct (Validator.isChained cmd); [apply oblivious_ret|].
  destruct (osStart os i cmd); oblivious; apply IH.
Qed.

Lemma oblivious_handleEvents (os : OS) (events : list event) :
  Oblivious (handleEvents os events).
Proof.
  unfold handleEvents. apply oblivious_bind; [oblivious|]. intros _.
  apply oblivious_get; [reflexivity|]. intros a.
  apply oblivious_bind; [apply oblivious_eventLoop|]. intros [|].
  - apply oblivious_get; [reflexivity|]. intros a'. apply oblivious_ret.
  - apply oblivious_ret.
Qed.

Lemma oblivious_body (os : OS) (commands : list (list rune))
    (events : list event) :
  Oblivious (body os commands events).
Proof.
  unfold body. destruct (length commands =? 0)%nat; [oblivious|].
  apply oblivious_bind; [apply oblivious_startFrom|]. intros [e|].
  - oblivious.
  - apply oblivious_get; [reflexivity|]. intros a.
    destruct (size (subprocesses a) =? 0)%nat; [oblivious|].
    apply oblivious_bind; [apply oblivious_handleEvents|].
    intros [[|]|]; oblivious.
Qed.

(** X20: The [verbose] flag changes nothing but the lines on standard output:
    with the flag off [main] returns the same exit code, leaves the same
    subprocesses, and has the same trace less those lines; and with the
    flag off it writes nothing to standard output. *)
Theorem verbose_only_adds_log_lines (os : OS) (v : bool)
    (commands : list (list rune)) (events : list event) :
  value (main os false commands events) = value (main os v commands events)
  /\
  objects (final (main os false commands events))
    = objects (final (main os v commands events)) /\
  trace (main os false commands events)
    = silent (trace (main os v commands events)) /\
  forall l, Stdout l ∉ trace (main os false commands events).
Proof.
  destruct (oblivious_body os commands events (Multirun v [] ∅))
    as (Hv & Hf & Ht).
  change (body os commands events (quiet (Multirun v [] ∅)))
    with (main os false commands events) in *.
  change (body os commands events (Multirun v [] ∅))
    with (main os v commands events) in *.
  repeat apply conj.
  - exact Hv.
  - rewrite Hf. reflexivity.
  - exact Ht.
  - intros l. rewrite Ht. apply silent_no_stdout.
Qed.

(** *** Pids that come back *)

Lemma register_latestKept (pid : Z) (cmd : list rune) (app : multirun) :
  latestKept app -> latestKept (final (register pid cmd app)).
Proof.
  intros Hinv proc p Hp. cbn [register final objects subprocesses] in *.
  apply lookup_app_Some in Hp as [Hp|[Hge Hp]].
  - destruct (decide (pid = cmdPid p)) as [<-|Hne].
    + exists (length (objects app)). rewrite lookup_insert_eq.
      split; [reflexivity|]. apply lookup_lt_Some in Hp. lia.
    + rewrite lookup_insert_ne by exact Hne. apply Hinv, Hp.
  - destruct (proc - length (objects app))%nat as [|n] eqn:E;
      [|destruct n; discriminate Hp].
    simpl in Hp. injection Hp as <-. simpl.
    exists (length (objects app)). rewrite lookup_insert_eq.
    split; [reflexivity|lia].
Qed.

Lemma startFrom_latestKept (os : OS) (cmds : list (list rune)) :
  forall i app,
    latestKept app -> latestKept (final (startFrom os i cmds app)).
Proof.
  induction cmds as [|cmd rest IH]; intros i app Hinv; [exact Hinv|].
  destruct (Validator.isChained cmd) eqn:Hc.
  - rewrite startFrom_chained by exact Hc. exact Hinv.
  - destruct (osStart os i cmd) as [pid|] eqn:Hos.
    + rewrite (startFrom_started _ _ _ _ _ pid Hc Hos). cbn [final].
      apply IH, register_latestKept, Hinv.
    + rewrite (startFrom_failed _ _ _ _ _ Hc Hos). cbn [final].
      apply IH, Hinv.
Qed.

(** X22: After the launch of any batch, the pid of every started child is
    a key of the map; the entry of a pid leads to a child that carries
    that pid, and to the one started last among the children that carry
    it; so when the operating system hands out a pid twice, the earlier
    child is the target of no entry of the map. *)
Theorem launch_keeps_latest (os : OS) (v : bool)
    (commands : list (list rune)) :
  (forall proc p,
     objects (final (startSubprocesses os commands (Multirun v [] ∅)))
       !! proc = Some p ->
     is_Some
       (subprocesses (final (startSubprocesses os commands (Multirun v [] ∅)))
          !! cmdPid p)) /\
  (forall pid proc,
     subprocesses (final (startSubprocesses os commands (Multirun v [] ∅)))
       !! pid = Some proc ->
     exists p,
       objects (final (startSubprocesses os commands (Multirun v [] ∅)))
         !! proc = Some p /\
       cmdPid p = pid /\
       forall proc2 p2,
         objects (final (startSubprocesses os commands (Multirun v [] ∅)))
           !! proc2 = Some p2 ->
         cmdPid p2 = pid -> (proc2 <= proc)%nat) /\
  (forall earlier p later p2,
     objects (final (startSubprocesses os commands (Multirun v [] ∅)))
       !! earlier = Some p ->
     objects (final (startSubprocesses os commands (Multirun v [] ∅)))
       !! later = Some p2 ->
     (earlier < later)%nat -> cmdPid p2 = cmdPid p ->
     forall pid,
       subprocesses (final (startSubprocesses os commands (Multirun v [] ∅)))
         !! pid <> Some earlier).
Proof.
  assert (Hlatest : latestKept
            (final (startSubprocesses os commands (Multirun v [] ∅)))).
  { unfold startSubprocesses. apply startFrom_latestKept.
    intros proc p Hp. simpl in Hp. rewrite lookup_nil in Hp.
    discriminate Hp. }
  assert (Hkeyed : launchedState
            (final (startSubprocesses os commands (Multirun v [] ∅)))).
  { unfold startSubprocesses.
    apply (startFrom_invariants os commands 0 (Multirun v [] ∅)).
    - intros pid proc H. simpl in H. rewrite lookup_empty in H.
      discriminate H.
    - simpl. rewrite map_size_empty. lia. }
  set (app := final (startSubprocesses os commands (Multirun v [] ∅))) in *.
  repeat apply conj.
  - intros proc p Hp. destruct (Hlatest proc p Hp) as (proc' & Hl & _).
    eauto.
  - intros pid proc Hl. destruct (Hkeyed pid proc Hl) as (p & Hp & Hpid & _).
    exists p. split; [exact Hp|]. split; [exact Hpid|].
    intros proc2 p2 Hp2 Hpid2.
    destruct (Hlatest proc2 p2 Hp2) as (proc' & Hl' & Hle).
    rewrite Hpid2, Hl in Hl'. injection Hl' as <-. exact Hle.
  - intros earlier p later p2 Hp Hp2 Hlt Hsame pid Hl.
    destruct (Hkeyed pid earlier Hl) as (p0 & Hp0 & Hpid & _).
    rewrite Hp in Hp0. injection Hp0 as <-.
    destruct (Hlatest later p2 Hp2) as (proc' & Hl' & Hle).
    rewrite Hsame, Hpid, Hl in Hl'. injection Hl' as <-. lia.
Qed.

(** *** The exits of the whole of [main] *)

Lemma program_parsed (v : bool) (commands : list (list rune)) (errno : Z)
    (os : OS) (events : list event) :
  value (Entry.main (Entry.Parsed v commands) errno os events)
    = value (main os v commands events) /\
  trace (Entry.main (Entry.Parsed v commands) errno os events)
    = trace (Entry.setSubreaper errno (Multirun v [] ∅))
        ++ trace (main os v commands events).
Proof.
  unfold Entry.main, Entry.setSubreaper, main, bind.
  destruct (negb (errno =? 0)); split; reflexivity.
Qed.

(** X16: [main] exits with code 2 in three cases only: [flag.Parse] met an
    undefined flag or a bad flag value, no command was given, or one of
    the commands is chained. *)
Theorem program_exits_2_iff (p : Entry.parse) (errno : Z) (os : OS)
    (events : list event) :
  value (Entry.main p errno os events) = Exit 2 <->
  p = Entry.ParseFailed \/
  exists v commands,
    p = Entry.Parsed v commands /\
    (commands = [] \/
     Exists (fun c => Validator.isChained c = true) commands).
Proof.
  destruct p as [| |v commands].
  - split; [auto|reflexivity].
  - split; [discriminate|].
    intros [H|(v & commands & H & _)]; discriminate H.
  - rewrite (proj1 (program_parsed v commands errno os events)),
      main_exits_2_iff.
    split.
    + intros H. right. exists v, commands. auto.
    + intros [H|(v' & commands' & [= <- <-] & H)]; [discriminate H|exact H].
Qed.

(** X18: [main] exits with code 0 in two cases only: [-h] or [-help] was
    given, or after supervision, that is: the batch is not empty and holds
    no chained command, at least one child was started, the event loop
    was entered, and at least one completion event was handled. *)
Theorem program_exits_0_only_after_supervision (p : Entry.parse)
    (errno : Z) (os : OS) (events : list event) :
  value (Entry.main p errno os events) = Exit 0 ->
  p = Entry.ParseHelp \/
  exists v commands,
    p = Entry.Parsed v commands /\
    commands <> [] /\
    Forall (fun c => Validator.isChained c = false) commands /\
    launched os 0 commands <> [] /\
    Notify ∈ trace (Entry.main p errno os events) /\
    exits events <> [].
Proof.
  destruct p as [| |v commands]; intros H0.
  - discriminate H0.
  - left. reflexivity.
  - right. exists v, commands.
    destruct (program_parsed v commands errno os events) as [Hv Ht].
    rewrite Hv in H0.
    destruct (main_exits_0_only_after_supervision os v commands events H0)
      as (H1 & H2 & H3 & H4 & H5).
    repeat split; try assumption.
    rewrite Ht. apply elem_of_app. right. exact H4.
Qed.

Lemma program_exits_0_only_after_supervision_witness :
  Entry.Parsed true [sleep5] = Entry.ParseHelp \/
  exists v commands,
    Entry.Parsed true [sleep5] = Entry.Parsed v commands /\
    commands <> [] /\
    Forall (fun c => Validator.isChained c = false) commands /\
    launched obligingOS 0 commands <> [] /\
    Notify ∈ trace (Entry.main (Entry.Parsed true [sleep5]) 0 obligingOS
                      [ChildExit 0 killedByTerm]) /\
    exits [ChildExit 0 killedByTerm] <> [].
Proof.
  apply (program_exits_0_only_after_supervision (Entry.Parsed true [sleep5])
           0 obligingOS [ChildExit 0 killedByTerm]).
  reflexivity.
Defined.

End SupervisorMore.
